(** * kapacitor: the executing node (node.go)

    A shallow embedding of [node.go]: the running-maximum metric
    [MaxDuration], and the node with its linking ([addChild],
    [linkChild]), its lifecycle ([start], [stop], [Err]), the statistics
    it reads from its conduits ([collectedCount], [nodeStatsByGroup]) and
    its graph export ([edot]); then the properties the specification
    states about them.

    Conventions.
    - An [int64] is a [Z]; additions wrap as Go's do ([Int64.add]).
    - Go strings and the content of a [bytes.Buffer] are [string].
    - A Go [error] is its message; [option error] is an error that may be
      nil.
    - A pointer to a node or to a conduit is a key of a store ([gmap]), so
      that a conduit is shared by the output list of its producer and the
      input list of its consumer, and a node may be its own child.
    - Calls that leave the node (closing and aborting a conduit, logging,
      the send on the completion channel) are recorded in a trace, in the
      order they are made.
    - What node.go uses of other files (the conduit, the statistics
      registry, the stream types) is a parameter or is modelled from the
      specification, and says so. *)

From Stdlib Require Import ZArith List String Ascii DecimalString Lia.
From stdpp Require Import base gmap list strings option.

Open Scope Z_scope.

(** ** 64-bit signed integers *)

Module Int64.

Definition min_int : Z := - 2 ^ 63.
Definition max_int : Z := 2 ^ 63 - 1.

Definition in_range (z : Z) : Prop := min_int <= z <= max_int.

(** Two's complement wrap-around of an exact result. *)
Definition wrap (z : Z) : Z := (z + 2 ^ 63) mod 2 ^ 64 - 2 ^ 63.

(** [a + b] on [int64]. *)
Definition add (a b : Z) : Z := wrap (a + b).

End Int64.

(** ** MaxDuration: the running-maximum metric *)

Module MaxDur.

(** [type MaxDuration struct { d int64 }] *)
Record MaxDuration := { d : Z }.

(** [atomic.LoadInt64(&v.d)] *)
Definition Int (v : MaxDuration) : Z := d v.

(** [atomic.CompareAndSwapInt64(&v.d, old, new)]: the new cell and whether
    the swap happened. *)
Definition CompareAndSwapInt64 (v : MaxDuration) (old new : Z)
  : MaxDuration * bool :=
  if d v =? old then ({| d := new |}, true) else (v, false).

Section SetDefs.

(** [float64] and the conversion [int64(value)] are not embedded: the
    conversion is a parameter of [MaxDuration_Set]. *)
Variable float64 : Type.
Variable int64_of : float64 -> Z.

(** The [for] loop of [Set], one iteration per unit of fuel. Without a
    concurrent writer the swap of the first iteration succeeds. *)
Fixpoint Set_loop (fuel : nat) (next : Z) (v : MaxDuration)
  : option MaxDuration :=
  match fuel with
  | O => None
  | S k =>
      let cur := Int v in
      if next >? cur then
        let '(v', swapped) := CompareAndSwapInt64 v cur next in
        if swapped then Some v' else Set_loop k next v'
      else Some v
  end.

Definition MaxDuration_Set (fuel : nat) (value : float64) (v : MaxDuration)
  : option MaxDuration :=
  let next := int64_of value in
  Set_loop fuel next v.

(** [Set(v1); ...; Set(vn)] in sequence. *)
Fixpoint SetAll (fuel : nat) (values : list float64) (v : MaxDuration)
  : option MaxDuration :=
  match values with
  | [] => Some v
  | x :: xs =>
      match MaxDuration_Set fuel x v with
      | Some v' => SetAll fuel xs v'
      | None => None
      end
  end.

(** The largest of [z0] and the elements of [zs]. *)
Definition max_with (z0 : Z) (zs : list Z) : Z := fold_left Z.max zs z0.

(** *** Concurrent writers

    Each writer is at one of the atomic points of [Set]: before the load,
    between the load and the compare-and-swap (holding the value it read),
    or returned. A scheduler picks which writer moves. *)

Inductive pc :=
| AtLoad
| AtCas (cur : Z)
| Returned.

Record writer := { next : Z; at_ : pc }.

Record cell := { stored : Z; writers : list writer }.

Definition writer_step (w : writer) (dv : Z) : option (writer * Z) :=
  match at_ w with
  | AtLoad =>
      if next w >? dv
      then Some ({| next := next w; at_ := AtCas dv |}, dv)
      else Some ({| next := next w; at_ := Returned |}, dv)
  | AtCas cur =>
      if dv =? cur
      then Some ({| next := next w; at_ := Returned |}, next w)
      else Some ({| next := next w; at_ := AtLoad |}, dv)
  | Returned => None
  end.

(** Writer [i] takes its next atomic step; [None] when it has returned or
    does not exist. *)
Definition step (i : nat) (c : cell) : option cell :=
  match writers c !! i with
  | None => None
  | Some w =>
      match writer_step w (stored c) with
      | None => None
      | Some (w', dv') =>
          Some {| stored := dv'; writers := <[i := w']> (writers c) |}
      end
  end.

Fixpoint run (sched : list nat) (c : cell) : option cell :=
  match sched with
  | [] => Some c
  | i :: rest =>
      match step i c with
      | Some c' => run rest c'
      | None => None
      end
  end.

Definition spawn (values : list float64) (v : MaxDuration) : cell :=
  {| stored := d v;
     writers := map (fun x => {| next := int64_of x; at_ := AtLoad |}) values |}.

Definition all_returned (c : cell) : Prop :=
  Forall (fun w => at_ w = Returned) (writers c).

End SetDefs.

End MaxDur.

(** ** Data model *)

(** A Go [error], by its message. *)
Definition error := string.

Definition NodeId := nat.
Definition EdgeId := nat.

(** [models.GroupID], [models.Tags] and [models.Fields]. The only field
    value [node.go] stores is an [int64]. *)
Definition GroupID := string.
Inductive FieldValue := FInt64 (z : Z).

(** Modelled from the spec: the per-group counters of a conduit (the
    [Edge] type is declared in edge.go): collected and emitted counts, and
    the most recently observed tag set and dimension list of the group. *)
Record edgeStat := {
  es_collected : Z;
  es_emitted : Z;
  es_tags : gmap string string;
  es_dims : list string
}.

(** Modelled from the spec: a conduit, as far as [node.go] reads it: the
    running totals of collected and emitted records and the per-group
    statistics (the [Edge] type is declared in edge.go). *)
Record Edge := {
  collected : Z;
  emitted : Z;
  groupStats : gmap GroupID edgeStat
}.

(** [type nodeStats struct { Fields; Tags; Dimensions }] *)
Record nodeStats := {
  Fields : gmap string FieldValue;
  Tags : gmap string string;
  Dimensions : list string
}.

(** How a call of the run routine ends: it returns an error (or nil), or
    it panics with a value, kept as the text [%s] prints for it. *)
Inductive RunOutcome :=
| Returns (e : option error)
| Panics (r : string).

(** Calls that leave the node: methods of [Edge], the logger and the send
    on the completion channel, in the order they are made. *)
Inductive Event :=
| EvClose (e : EdgeId)
| EvAbort (e : EdgeId)
| EvLog (line : string)
| EvSend (v : option error).

(** How the goroutine launched by [start] ends: it returns, it dies of a
    panic nobody recovered (which ends the process), or it is parked on a
    send to a full channel. *)
Inductive GoExit :=
| Exited
| Crashed (r : string)
| BlockedOnSend.

(** [kexpvar.Map] as [Do] visits it: the keys in order, each with the text
    [String()] of its value yields at the time of the visit. The field
    [statMap] of a node is a [*kexpvar.Map], which is nil until [start]
    assigns it: an [option StatMap], with [None] for nil. *)
Definition StatMap := list (string * string).

Section NodeDefs.

(** [pipeline.EdgeType] is declared in package pipeline; it is a
    parameter, compared with [!=] and printed with [String()]. *)
Context {EdgeType : Type} `{!EqDecision EdgeType}.
Variable EdgeType_String : EdgeType -> string.

(** The state a stop routine of some node kind acts on. *)
Context {Ext : Type}.

(** [type node struct]. [task] and [taskType] stand for [et.Task.Name] and
    [et.Task.Type.String()]; [name], [desc], [provides] and [wants] for the
    embedded [pipeline.Node]. [errCh] is the content of the channel, whose
    capacity is 1 once [start] made it. [statMap] is [None] while the
    pointer is nil. *)
Record node := {
  task : string;
  taskType : string;
  name : string;
  desc : string;
  provides : EdgeType;
  wants : EdgeType;
  parents : list NodeId;
  children : list NodeId;
  runF : list Byte.byte -> RunOutcome;
  stopF : option (Ext -> Ext);
  errCh : list (option error);
  err : option error;
  finished : bool;
  ins : list EdgeId;
  outs : list EdgeId;
  statsKey : string;
  statMap : option StatMap
}.

Definition set_parents (n : node) (x : list NodeId) : node :=
  {| task := task n; taskType := taskType n; name := name n; desc := desc n;
     provides := provides n; wants := wants n; parents := x;
     children := children n; runF := runF n; stopF := stopF n;
     errCh := errCh n; err := err n; finished := finished n; ins := ins n;
     outs := outs n; statsKey := statsKey n; statMap := statMap n |}.

Definition set_children (n : node) (x : list NodeId) : node :=
  {| task := task n; taskType := taskType n; name := name n; desc := desc n;
     provides := provides n; wants := wants n; parents := parents n;
     children := x; runF := runF n; stopF := stopF n;
     errCh := errCh n; err := err n; finished := finished n; ins := ins n;
     outs := outs n; statsKey := statsKey n; statMap := statMap n |}.

Definition set_ins (n : node) (x : list EdgeId) : node :=
  {| task := task n; taskType := taskType n; name := name n; desc := desc n;
     provides := provides n; wants := wants n; parents := parents n;
     children := children n; runF := runF n; stopF := stopF n;
     errCh := errCh n; err := err n; finished := finished n; ins := x;
     outs := outs n; statsKey := statsKey n; statMap := statMap n |}.

Definition set_outs (n : node) (x : list EdgeId) : node :=
  {| task := task n; taskType := taskType n; name := name n; desc := desc n;
     provides := provides n; wants := wants n; parents := parents n;
     children := children n; runF := runF n; stopF := stopF n;
     errCh := errCh n; err := err n; finished := finished n; ins := ins n;
     outs := x; statsKey := statsKey n; statMap := statMap n |}.

Definition set_errCh (n : node) (x : list (option error)) : node :=
  {| task := task n; taskType := taskType n; name := name n; desc := desc n;
     provides := provides n; wants := wants n; parents := parents n;
     children := children n; runF := runF n; stopF := stopF n;
     errCh := x; err := err n; finished := finished n; ins := ins n;
     outs := outs n; statsKey := statsKey n; statMap := statMap n |}.

Definition set_err (n : node) (x : option error) : node :=
  {| task := task n; taskType := taskType n; name := name n; desc := desc n;
     provides := provides n; wants := wants n; parents := parents n;
     children := children n; runF := runF n; stopF := stopF n;
     errCh := errCh n; err := x; finished := finished n; ins := ins n;
     outs := outs n; statsKey := statsKey n; statMap := statMap n |}.

Definition set_finished (n : node) (x : bool) : node :=
  {| task := task n; taskType := taskType n; name := name n; desc := desc n;
     provides := provides n; wants := wants n; parents := parents n;
     children := children n; runF := runF n; stopF := stopF n;
     errCh := errCh n; err := err n; finished := x; ins := ins n;
     outs := outs n; statsKey := statsKey n; statMap := statMap n |}.

Definition set_stats (n : node) (k : string) (m : option StatMap) : node :=
  {| task := task n; taskType := taskType n; name := name n; desc := desc n;
     provides := provides n; wants := wants n; parents := parents n;
     children := children n; runF := runF n; stopF := stopF n;
     errCh := errCh n; err := err n; finished := finished n; ins := ins n;
     outs := outs n; statsKey := k; statMap := m |}.

(** The nodes and conduits of a task, by reference. *)
Record Graph := {
  nodes : gmap NodeId node;
  edges : gmap EdgeId Edge
}.

Definition with_nodes (g : Graph) (ns : gmap NodeId node) : Graph :=
  {| nodes := ns; edges := edges g |}.

Definition with_edges (g : Graph) (es : gmap EdgeId Edge) : Graph :=
  {| nodes := nodes g; edges := es |}.

(** A method with a pointer receiver that writes one field. *)
Definition update_node (f : node -> node) (i : NodeId) (g : Graph) : Graph :=
  with_nodes g (alter f i (nodes g)).

(** ** Linking *)

(** [newEdge] is declared in edge.go; it is a parameter, given the task
    name, the two node names and the stream type, and may return nil. *)
Variable newEdge : string -> string -> string -> EdgeType -> option Edge.

(** The pointer of a freshly allocated conduit. *)
Definition alloc_edge (g : Graph) : EdgeId := fresh (dom (edges g)).

(** [func (n *node) addParentEdge(e *Edge)] *)
Definition addParentEdge (e : EdgeId) (n : node) : node :=
  set_ins n (ins n ++ [e]).

(** [func (n *node) addParent(p Node)] *)
Definition addParent (p : NodeId) (n : node) : node :=
  set_parents n (parents n ++ [p]).

Definition mismatch_error (p w : EdgeType) : error :=
  "cannot add child mismatched edges: " +:+ EdgeType_String p +:+ " -> "
    +:+ EdgeType_String w.

Definition unknown_edge_error (p : EdgeType) : error :=
  "unknown edge type " +:+ EdgeType_String p.

(** [func (n *node) addChild(c Node)], returning the conduit or an error.
    The result is [None]
    only when [n] or [c] is not a node of the graph. The child is read
    again after [n.children] was written, as [n] and [c] may be one node. *)
Definition addChild (g : Graph) (n c : NodeId)
  : option (Graph * (EdgeId + error)) :=
  nr ← nodes g !! n;
  cr ← nodes g !! c;
  if bool_decide (provides nr ≠ wants cr) then
    Some (g, inr (mismatch_error (provides nr) (wants cr)))
  else
    let g1 := update_node (fun x => set_children x (children x ++ [c])) n g in
    match newEdge (task nr) (name nr) (name cr) (provides nr) with
    | None => Some (g1, inr (unknown_edge_error (provides nr)))
    | Some e =>
        let edge := alloc_edge g1 in
        let g2 := with_edges g1 (<[edge := e]> (edges g1)) in
        let g3 := update_node (addParentEdge edge) c g2 in
        Some (g3, inl edge)
    end.

(** [func (n *node) linkChild(c Node) error] *)
Definition linkChild (g : Graph) (n c : NodeId)
  : option (Graph * option error) :=
  '(g1, r) ← addChild g n c;
  match r with
  | inr e => Some (g1, Some e)
  | inl edge =>
      let g2 := update_node (addParent n) c g1 in
      let g3 := update_node (fun x => set_outs x (outs x ++ [edge])) n g2 in
      Some (g3, None)
  end.

(** A graph as the orchestrator builds it: nodes that start without
    relatives or conduits, then any number of [linkChild] calls, failed
    ones included. *)
Definition unlinked (n : node) : Prop :=
  parents n = [] /\ children n = [] /\ ins n = [] /\ outs n = [].

Inductive built : Graph -> Prop :=
| built_fresh g :
    (forall i n, nodes g !! i = Some n -> unlinked n) ->
    edges g = ∅ ->
    built g
| built_link g n c g' r :
    built g ->
    linkChild g n c = Some (g', r) ->
    built g'.


(** ** Statistics read from the conduits *)

(** A conduit reference is always live in Go; a reference the store does
    not hold reads as a conduit that has seen nothing. *)
Definition edge_at (g : Graph) (e : EdgeId) : Edge :=
  default {| collected := 0; emitted := 0; groupStats := ∅ |} (edges g !! e).

(** Modelled from the spec: [Edge.collectedCount()] and
    [Edge.emittedCount()] of edge.go, the running totals of the conduit. *)
Definition Edge_collectedCount (g : Graph) (e : EdgeId) : Z :=
  collected (edge_at g e).

Definition Edge_emittedCount (g : Graph) (e : EdgeId) : Z :=
  emitted (edge_at g e).

(** Modelled from the spec: [Edge.readGroupStats(f)] of edge.go, which
    calls [f] with (group, collected, emitted, lastTags, lastDimensions)
    for every group observed so far. The callback of [node.go] writes a
    map it captured, which is the accumulator here. *)
Definition readGroupStats {B : Type} (e : Edge)
    (f : GroupID -> Z -> Z -> gmap string string -> list string -> B -> B)
    (b : B) : B :=
  map_fold
    (fun group st acc =>
       f group (es_collected st) (es_emitted st) (es_tags st) (es_dims st) acc)
    b (groupStats e).

(** [func (n *node) collectedCount() (count int64)] *)
Definition collectedCount (g : Graph) (n : node) : Z :=
  foldl (fun count in_ => Int64.add count (Edge_emittedCount g in_)) 0 (ins n).

(** [func (n *node) nodeStatsByGroup() (stats map[models.GroupID]nodeStats)];
    [None] is the nil map. *)
Definition nodeStatsByGroup (g : Graph) (n : node)
  : option (gmap GroupID nodeStats) :=
  match outs n with
  | out0 :: _ =>
      let stats : gmap GroupID nodeStats := ∅ in
      Some (readGroupStats (edge_at g out0)
              (fun group c e tags dims stats =>
                 <[group := {| Fields := {[ "emitted" := FInt64 c ]};
                               Tags := tags;
                               Dimensions := dims |}]> stats)
              stats)
  | [] => None
  end.

(** ** Graph export *)

Definition nl : string := String "010"%char EmptyString.
Definition dq : string := String "034"%char EmptyString.

(** The verb [%d] on an [int64]. *)
Definition fmt_d (z : Z) : string := NilZero.string_of_int (Z.to_int z).

(** [c.Name()] through a child reference. *)
Definition Node_Name (g : Graph) (c : NodeId) : string :=
  from_option name EmptyString (nodes g !! c).

(** [kexpvar.Map.Do(f)]: [f] on every entry, in order. *)
Definition Map_Do {B : Type} (m : StatMap) (f : string * string -> B -> B)
    (b : B) : B :=
  foldl (fun acc kv => f kv acc) b m.

(** How [edot] ends: it returns, indexing [n.outs\[i\]] panics, or the
    call [n.statMap.Do] on the nil map of a node that was never started
    panics with a nil pointer dereference. *)
Inductive EdotExit :=
| EdotReturned
| EdotIndexOutOfRange (index len : nat)
| EdotNilMap.

(** The loop [for i, c := range n.children] of [edot]; [edge_line] is the
    [Sprintf] of the branch. The operands are evaluated before anything is
    written, so nothing is written for the child whose index is out of
    range. *)
Fixpoint edot_children (edge_line : string -> string -> Z -> string)
    (g : Graph) (n : node) (i : nat) (cs : list NodeId) (buf : string)
  : string * EdotExit :=
  match cs with
  | [] => (buf, EdotReturned)
  | c :: rest =>
      match outs n !! i with
      | None => (buf, EdotIndexOutOfRange i (length (outs n)))
      | Some out =>
          let buf := buf +:+ edge_line (name n) (Node_Name g c)
                                 (Edge_collectedCount g out) in
          edot_children edge_line g n (S i) rest buf
      end
  end.

Definition label_edge_line (p c : string) (count : Z) : string :=
  p +:+ " -> " +:+ c +:+ " [label=" +:+ dq +:+ fmt_d count +:+ dq +:+ "];"
    +:+ nl.

Definition attr_edge_line (p c : string) (count : Z) : string :=
  p +:+ " -> " +:+ c +:+ " [processed=" +:+ dq +:+ fmt_d count +:+ dq
    +:+ "];" +:+ nl.

(** [func (n *node) edot(buf *bytes.Buffer, labels bool)]: the buffer
    after the call and how the call ended. The opening of the node
    declaration is written before [n.statMap.Do] is called, which
    dereferences the map: on the nil map of a node that was never started
    the call panics and the opening stays in the buffer. *)
Definition edot (g : Graph) (n : node) (buf : string) (labels : bool)
  : string * EdotExit :=
  if labels then
    let buf := buf +:+ (nl +:+ name n +:+ " [label=" +:+ dq +:+ name n +:+ " ") in
    match statMap n with
    | None => (buf, EdotNilMap)
    | Some m =>
        let buf :=
          Map_Do m
            (fun kv buf => buf +:+ (fst kv +:+ "=" +:+ snd kv +:+ " ")) buf in
        let buf := buf +:+ (dq +:+ "];" +:+ nl) in
        edot_children label_edge_line g n 0%nat (children n) buf
    end
  else
    let buf := buf +:+ (nl +:+ name n +:+ " [") in
    match statMap n with
    | None => (buf, EdotNilMap)
    | Some m =>
        let buf :=
          Map_Do m
            (fun kv buf =>
               buf +:+ (fst kv +:+ "=" +:+ dq +:+ snd kv +:+ dq +:+ " ")) buf in
        let buf := buf +:+ ("];" +:+ nl) in
        edot_children attr_edge_line g n 0%nat (children n) buf
    end.

(** ** Lifecycle *)

(** Modelled from the spec: the statistics registry behind
    [NewStatistics] and [DeleteStatistics] (declared outside node.go):
    [register(category, tags)] stores the tags under a new key and hands
    out an empty live map, [unregister(key)] drops the key. *)
Record Runtime := {
  registry : gmap string (string * gmap string string);
  ext : Ext
}.

(** The key [NewStatistics] draws for a registry, and the text
    [time.Duration.String] prints. *)
Variable new_key : gmap string (string * gmap string string) -> string.
Variable Duration_String : Z -> string.

(** Modelled from the spec: [NewStatistics], the [register(category, tags)]
    of the registry, which returns the key and the live map. *)
Definition NewStatistics (category : string) (tags : gmap string string)
    (rt : Runtime) : string * StatMap * Runtime :=
  let key := new_key (registry rt) in
  (key, [],
   {| registry := <[key := (category, tags)]> (registry rt); ext := ext rt |}).

(** Modelled from the spec: [DeleteStatistics], the [unregister(key)] of
    the registry. *)
Definition DeleteStatistics (key : string) (rt : Runtime) : Runtime :=
  {| registry := delete key (registry rt); ext := ext rt |}.

(** Modelled from the spec: [kexpvar.Map.Set] (package expvar of the
    repository), which sets the value of a key of the live map; the keys
    stay sorted, as [Do] visits them. *)
Fixpoint StatMap_Set (m : StatMap) (k v : string) : StatMap :=
  match m with
  | [] => [(k, v)]
  | (k', v') :: rest =>
      match String.compare k k' with
      | Eq => (k, v) :: rest
      | Lt => (k, v) :: (k', v') :: rest
      | Gt => (k', v') :: StatMap_Set rest k v
      end
  end.

Definition statAverageExecTime : string := "avg_exec_time".

(** The text [runtime.Stack] has to offer for the calling goroutine. *)
Variable stack_dump : string.

(** [runtime.Stack(buf, false)] for a buffer of [len_buf] bytes: what was
    written and how many bytes that is. *)
Definition runtime_Stack (len_buf : nat) : string * nat :=
  let written := substring 0 len_buf stack_dump in
  (written, String.length written).

(** [recover()] called by the deferred function itself: the value of the
    panic in flight, which stops. *)
Definition recover (panicking : option string) : option string * option string :=
  (panicking, None).

(** A send on a channel of capacity [cap]; [None] when it would block. *)
Definition chan_send (cap : nat) (ch : list (option error)) (v : option error)
  : option (list (option error)) :=
  if decide (length ch < cap)%nat then Some (ch ++ [v]) else None.

(** [func (n *node) closeChildEdges()] *)
Definition closeChildEdges (n : node) (tr : list Event) : list Event :=
  foldl (fun tr child => tr ++ [EvClose child]) tr (outs n).

(** [func (n *node) abortParentEdges()] *)
Definition abortParentEdges (n : node) (tr : list Event) : list Event :=
  foldl (fun tr in_ => tr ++ [EvAbort in_]) tr (ins n).

(** The part of [start] that runs before it returns. The timer is left
    out. *)
Definition start (n : node) (rt : Runtime) : node * Runtime :=
  let tags : gmap string string :=
    <["task" := task n]> (<["node" := name n]> (<["type" := taskType n]>
      (<["kind" := desc n]> ∅))) in
  let '(key, m, rt) := NewStatistics "nodes" tags rt in
  let n := set_stats n key (Some m) in
  let avgExecVar := {| MaxDur.d := 0 |} in
  let n :=
    set_stats n (statsKey n)
      ((fun m =>
          StatMap_Set m statAverageExecTime
            (Duration_String (MaxDur.Int avgExecVar))) <$> statMap n) in
  let n := set_errCh n [] in
  (n, rt).

(** The function [start] defers in the goroutine, entered with the value
    of [err] and the panic in flight, if any. *)
Definition start_deferred (n : node) (err : option error)
    (panicking : option string) : node * list Event * GoExit :=
  let tr := closeChildEdges n [] in
  let '(err, panicking, tr) :=
    match err with
    | Some e =>
        let '(r, panicking) := recover panicking in
        let e :=
          match r with
          | Some rv =>
              let '(trace, k) := runtime_Stack 512 in
              rv +:+ ": Trace:" +:+ substring 0 k trace
          | None => e
          end in
        let tr := abortParentEdges n tr in
        let tr := tr ++ [EvLog ("E! " +:+ e)] in
        (Some e, panicking, tr)
    | None => (err, panicking, tr)
    end in
  match chan_send 1 (errCh n) err with
  | None => (n, tr, BlockedOnSend)
  | Some ch =>
      (set_errCh n ch, tr ++ [EvSend err],
       match panicking with
       | Some r => Crashed r
       | None => Exited
       end)
  end.

(** The goroutine [start] launches: [var err error], the deferred
    function, and [err = n.runF(snapshot)], whose assignment happens only
    when the run routine returns. *)
Definition start_goroutine (n : node) (snapshot : list Byte.byte)
  : node * list Event * GoExit :=
  let err : option error := None in
  match runF n snapshot with
  | Returns e => start_deferred n e None
  | Panics r => start_deferred n err (Some r)
  end.

(** [func (n *node) stop()] *)
Definition stop (n : node) (rt : Runtime) : node * Runtime :=
  let rt :=
    match stopF n with
    | Some f => {| registry := registry rt; ext := f (ext rt) |}
    | None => rt
    end in
  (n, DeleteStatistics (statsKey n) rt).

(** [func (n *node) Err() error], one caller at a time: [None] when the
    receive finds the channel empty and the caller stays parked. *)
Definition Err (n : node) : option (node * option error) :=
  if negb (finished n) then
    let n := set_finished n true in
    match errCh n with
    | v :: rest =>
        let n := set_err (set_errCh n rest) v in
        Some (n, err n)
    | [] => None
    end
  else Some (n, err n).

(** [N] calls of [Err] one after the other, with their results. *)
Fixpoint Err_times (k : nat) (n : node) : option (node * list (option error)) :=
  match k with
  | O => Some (n, [])
  | S k' =>
      match Err n with
      | None => None
      | Some (n', r) =>
          match Err_times k' n' with
          | None => None
          | Some (n'', rs) => Some (n'', r :: rs)
          end
      end
  end.

(** *** Concurrent callers of [Err]

    A caller is before [Lock], holds the lock before the test of
    [finished], before the write of [finished], at the receive, at the
    [return] (whose deferred [Unlock] follows), or has returned. *)
Inductive ErrPc :=
| ErrCall
| ErrLocked
| ErrSetFinished
| ErrReceive
| ErrReturn
| ErrDone (r : option error).

(** [mutex] is the caller that holds [finishedMu], if any. *)
Record ErrState := {
  subject : node;
  mutex : option nat;
  receives : nat;
  callers : list ErrPc
}.

Definition Err_move (s : ErrState) (i : nat) (n : node) (m : option nat)
    (recv : nat) (pc : ErrPc) : ErrState :=
  {| subject := n; mutex := m; receives := recv;
     callers := <[i := pc]> (callers s) |}.

(** Caller [i] takes its next step; [None] when it cannot move: it waits
    for the lock, it waits at the receive for a value, or it has
    returned. *)
Definition Err_step (i : nat) (s : ErrState) : option ErrState :=
  let n := subject s in
  match callers s !! i with
  | None => None
  | Some ErrCall =>
      match mutex s with
      | Some _ => None
      | None => Some (Err_move s i n (Some i) (receives s) ErrLocked)
      end
  | Some ErrLocked =>
      if negb (finished n)
      then Some (Err_move s i n (mutex s) (receives s) ErrSetFinished)
      else Some (Err_move s i n (mutex s) (receives s) ErrReturn)
  | Some ErrSetFinished =>
      Some (Err_move s i (set_finished n true) (mutex s) (receives s)
              ErrReceive)
  | Some ErrReceive =>
      match errCh n with
      | v :: rest =>
          Some (Err_move s i (set_err (set_errCh n rest) v) (mutex s)
                  (S (receives s)) ErrReturn)
      | [] => None
      end
  | Some ErrReturn =>
      Some (Err_move s i n None (receives s) (ErrDone (err n)))
  | Some (ErrDone _) => None
  end.

Fixpoint Err_run (sched : list nat) (s : ErrState) : option ErrState :=
  match sched with
  | [] => Some s
  | i :: rest =>
      match Err_step i s with
      | Some s' => Err_run rest s'
      | None => None
      end
  end.

(** [k] callers about to call [Err] on [n]. *)
Definition Err_callers (k : nat) (n : node) : ErrState :=
  {| subject := n; mutex := None; receives := 0;
     callers := replicate k ErrCall |}.

(** A node whose goroutine has delivered [v] and on which nobody has
    called [Err] yet. *)
Definition terminated (n : node) (v : option error) : Prop :=
  errCh n = [v] /\ finished n = false.

(** The steps a caller still has before it has returned. *)
Definition Err_weight (pc : ErrPc) : nat :=
  match pc with
  | ErrCall => 5
  | ErrLocked => 4
  | ErrSetFinished => 3
  | ErrReceive => 2
  | ErrReturn => 1
  | ErrDone _ => 0
  end.

Definition Err_measure (s : ErrState) : nat :=
  sum_list (map Err_weight (callers s)).

Definition Err_done (pc : ErrPc) : Prop := exists r, pc = ErrDone r.

(** A caller between [Lock] and [Unlock]. *)
Definition Err_critical (pc : ErrPc) : Prop :=
  pc = ErrLocked \/ pc = ErrSetFinished \/ pc = ErrReceive \/ pc = ErrReturn.

(** The three phases of the completion cell of a node that terminated
    with [v]: nobody has set [finished]; the first caller has set it and
    is at the receive; the value is cached in [err]. *)
Definition Err_phase (v : option error) (s : ErrState) : Prop :=
  (finished (subject s) = false /\ errCh (subject s) = [v] /\
   receives s = 0%nat /\
   forall i pc, callers s !! i = Some pc ->
     pc = ErrCall \/ pc = ErrLocked \/ pc = ErrSetFinished) \/
  (finished (subject s) = true /\ errCh (subject s) = [v] /\
   receives s = 0%nat /\
   (exists i, callers s !! i = Some ErrReceive) /\
   forall i pc, callers s !! i = Some pc -> pc = ErrCall \/ pc = ErrReceive) \/
  (finished (subject s) = true /\ errCh (subject s) = [] /\
   err (subject s) = v /\ receives s = 1%nat /\
   forall i pc, callers s !! i = Some pc ->
     pc = ErrCall \/ pc = ErrLocked \/ pc = ErrReturn \/ pc = ErrDone v).

Definition Err_inv (v : option error) (s : ErrState) : Prop :=
  (forall i pc, callers s !! i = Some pc ->
     (Err_critical pc <-> mutex s = Some i)) /\
  (forall i, mutex s = Some i -> is_Some (callers s !! i)) /\
  Err_phase v s.

End NodeDefs.

(** ** Invariants used by the proofs *)

Section MaxDurationInvariant.

Import MaxDur.

(** What every interleaving keeps: the stored value never went below the
    initial [d0], it is [d0] or some writer's value, a writer between load
    and swap read a value below its own, and a writer that returned left
    at least its value behind. *)
Definition writer_ok (dv : Z) (w : writer) : Prop :=
  match at_ w with
  | AtLoad => True
  | AtCas cur => cur < next w /\ cur <= dv
  | Returned => next w <= dv
  end.

Definition cell_inv (d0 : Z) (nexts : list Z) (c : cell) : Prop :=
  d0 <= stored c /\
  (stored c = d0 \/ stored c ∈ nexts) /\
  map next (writers c) = nexts /\
  Forall (writer_ok (stored c)) (writers c).

(** A bound on the steps the writers can still take: a writer whose value
    is above the stored one may still swap, which sends every writer that
    has loaded back to its load; [k] is the number of writers. *)
Definition writer_weight (dv : Z) (w : writer) : nat :=
  match at_ w with
  | AtLoad => 2
  | AtCas cur => if dv =? cur then 1 else 3
  | Returned => 0
  end.

Definition writer_cost (k : nat) (dv : Z) (w : writer) : nat :=
  ((if next w >? dv then 2 * k else 0) + writer_weight dv w)%nat.

Definition cell_measure (c : cell) : nat :=
  sum_list (map (writer_cost (length (writers c)) (stored c)) (writers c)).

End MaxDurationInvariant.

(** What the goroutine of [start] does after the run routine ended with
    outcome [o]: the value it sends, the unwinding between the closing of
    the outputs and the send, and how it ends. *)
Definition delivered (o : RunOutcome) : option error :=
  match o with
  | Returns e => e
  | Panics _ => None
  end.

Definition unwinding {EdgeType Ext : Type} (n : @node EdgeType Ext)
    (o : RunOutcome) : list Event :=
  match o with
  | Returns (Some e) => map EvAbort (ins n) ++ [EvLog ("E! " +:+ e)]
  | _ => []
  end.

Definition exit_of (o : RunOutcome) : GoExit :=
  match o with
  | Panics r => Crashed r
  | Returns _ => Exited
  end.

(** The conduits closed, the conduits aborted, the lines logged and the
    values sent, each in the order of the trace. *)
Definition closes_of (tr : list Event) : list EdgeId :=
  omap (fun ev => match ev with EvClose e => Some e | _ => None end) tr.

Definition aborts_of (tr : list Event) : list EdgeId :=
  omap (fun ev => match ev with EvAbort e => Some e | _ => None end) tr.

Definition logs_of (tr : list Event) : list string :=
  omap (fun ev => match ev with EvLog l => Some l | _ => None end) tr.

Definition sends_of (tr : list Event) : list (option error) :=
  omap (fun ev => match ev with EvSend v => Some v | _ => None end) tr.

(** The entry the specification asks of [nodeStatsByGroup] for a group with
    counters [st], with the conduit's emitted count of the group under
    the key emitted, and the entry with its collected count there. *)
Definition entry_with (count : Z) (st : edgeStat) : nodeStats :=
  {| Fields := {[ "emitted" := FInt64 count ]};
     Tags := es_tags st;
     Dimensions := es_dims st |}.

Definition entry_of_emitted (st : edgeStat) : nodeStats :=
  entry_with (es_emitted st) st.

Definition entry_of_collected (st : edgeStat) : nodeStats :=
  entry_with (es_collected st) st.

(** The text the specification asks of [edot]: one declaration for the
    node with every key and value of the statistics map, then one
    declaration per child with the collected count of the conduit to it. *)
Definition join (parts : list string) : string :=
  foldr String.append EmptyString parts.

Definition stat_text (labels : bool) (kv : string * string) : string :=
  if labels then fst kv +:+ "=" +:+ snd kv +:+ " "
  else fst kv +:+ "=" +:+ dq +:+ snd kv +:+ dq +:+ " ".

(** The opening of the node declaration, and the declaration of a node
    whose statistics map holds [m]. *)
Definition node_opening {EdgeType Ext : Type} (labels : bool)
    (n : @node EdgeType Ext) : string :=
  if labels then nl +:+ name n +:+ " [label=" +:+ dq +:+ name n +:+ " "
  else nl +:+ name n +:+ " [".

Definition node_declaration {EdgeType Ext : Type} (labels : bool)
    (n : @node EdgeType Ext) (m : StatMap) : string :=
  if labels then
    nl +:+ name n +:+ " [label=" +:+ dq +:+ name n +:+ " "
      +:+ join (map (stat_text true) m) +:+ dq +:+ "];" +:+ nl
  else
    nl +:+ name n +:+ " [" +:+ join (map (stat_text false) m)
      +:+ "];" +:+ nl.

Definition edge_declaration {EdgeType Ext : Type} (labels : bool)
    (g : @Graph EdgeType Ext) (n : @node EdgeType Ext) (c : NodeId)
    (out : EdgeId) : string :=
  n.(name) +:+ " -> " +:+ Node_Name g c +:+
    (if labels then " [label=" else " [processed=") +:+ dq
    +:+ fmt_d (Edge_collectedCount g out) +:+ dq +:+ "];" +:+ nl.

(** ** A small task for the examples

    The stream shapes the specification names, a node constructor, and a
    conduit with a backlog: group G1 has 3 records collected and 1
    emitted, group G2 has 2 collected and 2 emitted. *)

Inductive Shape := Stream | Batch | Other.

#[global] Instance Shape_eq_dec : EqDecision Shape.
Proof. solve_decision. Defined.

Definition Shape_String (s : Shape) : string :=
  match s with
  | Stream => "stream"
  | Batch => "batch"
  | Other => "other"
  end.

Definition mk_node (nm : string) (p w : Shape)
    (run : list Byte.byte -> RunOutcome) (stopf : option (nat -> nat))
  : @node Shape nat :=
  {| task := "task"; taskType := "stream"; name := nm; desc := "kind";
     provides := p; wants := w; parents := []; children := [];
     runF := run; stopF := stopf; errCh := []; err := None;
     finished := false; ins := []; outs := [];
     statsKey := EmptyString; statMap := None |}.

Definition run_ok : list Byte.byte -> RunOutcome := fun _ => Returns None.

Definition backlog_edge : Edge :=
  {| collected := 5; emitted := 3;
     groupStats :=
       <["G1" := {| es_collected := 3; es_emitted := 1;
                    es_tags := {[ "host" := "a" ]}; es_dims := ["host"] |}]>
       (<["G2" := {| es_collected := 2; es_emitted := 2;
                     es_tags := {[ "host" := "b" ]}; es_dims := ["host"] |}]>
        ∅) |}.

Definition drained_edge : Edge :=
  {| collected := 4; emitted := 4; groupStats := ∅ |}.

(** Node 0 feeds node 1 through conduit 0 and node 2 through conduit 1;
    node 1 also reads conduit 1. *)
Definition sample_graph : @Graph Shape nat :=
  {| nodes :=
       <[0%nat := set_outs (set_children (mk_node "src" Stream Stream run_ok None)
                              [1%nat; 2%nat]) [0%nat; 1%nat]]>
       (<[1%nat := set_ins (mk_node "mid" Stream Stream run_ok None)
                     [0%nat; 1%nat]]>
        (<[2%nat := set_ins (mk_node "sink" Stream Stream run_ok None)
                      [1%nat]]> ∅));
     edges := <[0%nat := backlog_edge]> (<[1%nat := drained_edge]> ∅) |}.

Definition sample_src : @node Shape nat :=
  set_outs (set_children (mk_node "src" Stream Stream run_ok None)
              [1%nat; 2%nat]) [0%nat; 1%nat].

Definition sample_mid : @node Shape nat :=
  set_ins (mk_node "mid" Stream Stream run_ok None) [0%nat; 1%nat].

(** A conduit constructor that knows the shapes Stream and Batch only, and
    an unlinked task: A and B carry batches, C carries a stream, X and Y
    carry the shape the constructor does not know. *)
Definition empty_edge : Edge :=
  {| collected := 0; emitted := 0; groupStats := ∅ |}.

Definition sample_newEdge (taskName parent child : string) (t : Shape)
  : option Edge :=
  match t with
  | Stream | Batch => Some empty_edge
  | Other => None
  end.

(** A conduit constructor that makes a conduit for every shape, as the
    specification has it. *)
Definition any_newEdge (taskName parent child : string) (t : Shape)
  : option Edge := Some empty_edge.

Definition node_A : @node Shape nat := mk_node "A" Batch Batch run_ok None.
Definition node_B : @node Shape nat := mk_node "B" Batch Batch run_ok None.
Definition node_C : @node Shape nat := mk_node "C" Stream Stream run_ok None.
Definition node_X : @node Shape nat := mk_node "X" Other Other run_ok None.
Definition node_Y : @node Shape nat := mk_node "Y" Other Other run_ok None.

Definition link_graph : @Graph Shape nat :=
  {| nodes :=
       <[0%nat := node_A]> (<[1%nat := node_B]> (<[2%nat := node_C]>
         (<[3%nat := node_X]> (<[4%nat := node_Y]> ∅))));
     edges := ∅ |}.

(** A registry, a key source and a duration printer for the examples; a
    node whose run routine panics, one whose run routine fails, and one
    whose stop routine counts its calls. *)
Definition sample_key (reg : gmap string (string * gmap string string))
  : string := "node-key".

Definition sample_duration (z : Z) : string := fmt_d z +:+ "ns".

Definition sample_rt : @Runtime nat := {| registry := ∅; ext := 0%nat |}.

Definition sample_stack : string := "goroutine 7 [running]:".

(** The source node of the sample graph once [start] has run on it: its
    statistics map is live and holds the average execution time. *)
Definition started_src : @node Shape nat :=
  (start sample_key sample_duration sample_src sample_rt).1.

Definition panicking_node : @node Shape nat :=
  set_outs (set_ins (mk_node "B" Stream Stream (fun _ => Panics "boom") None)
              [0%nat]) [1%nat].

Definition failing_node : @node Shape nat :=
  set_outs (set_ins (mk_node "B" Stream Stream
                       (fun _ => Returns (Some "disk full")) None)
              [0%nat]) [1%nat].

Definition counting_node : @node Shape nat :=
  mk_node "W" Stream Stream run_ok (Some S).

Definition delivered_node : @node Shape nat :=
  set_errCh (mk_node "B" Stream Stream run_ok None) [Some "disk full"].

(** * Further definitions

    What the properties beyond the specification's claims are stated
    with. *)

(** ** Wiring: sequences of [linkChild] calls *)

Section WiringDefs.

Context {EdgeType : Type} `{!EqDecision EdgeType}.
Variable EdgeType_String : EdgeType -> string.
Context {Ext : Type}.
Variable newEdge : string -> string -> string -> EdgeType -> option Edge.

(** The [linkChild] calls of [ops], each a pair (parent, child), one after
    the other, whether they succeed or fail; [None] only when a pair names
    something that is not a node of the graph. *)
Fixpoint link_seq (ops : list (NodeId * NodeId)) (g : @Graph EdgeType Ext)
  : option (@Graph EdgeType Ext) :=
  match ops with
  | [] => Some g
  | (n, c) :: rest =>
      match linkChild EdgeType_String newEdge g n c with
      | Some (g', _) => link_seq rest g'
      | None => None
      end
  end.

(** A graph before any wiring: no node has relatives or conduits, and the
    store of conduits is empty. *)
Definition fresh_graph (g : @Graph EdgeType Ext) : Prop :=
  map_Forall (fun _ x => unlinked x) (nodes g) /\ edges g = ∅.

(** What a [linkChild] of [c] to [n] that passed the type check writes to
    the node [j], with the new conduit [oe] if the constructor made one:
    the three writes of the code, in their order. *)
Definition link_update (n c : NodeId) (oe : option EdgeId) (j : NodeId)
    (x : @node EdgeType Ext) : @node EdgeType Ext :=
  let x := if decide (j = n) then set_children x (children x ++ [c]) else x in
  match oe with
  | None => x
  | Some e =>
      let x := if decide (j = c) then addParent n (addParentEdge e x) else x in
      if decide (j = n) then set_outs x (outs x ++ [e]) else x
  end.

(** What the wiring keeps, for every node [x] at [j] of a graph. Every
    conduit a node lists is in the store. *)
Definition conduits_known (g : @Graph EdgeType Ext) : Prop :=
  forall j x e, nodes g !! j = Some x ->
    e ∈ outs x \/ e ∈ ins x -> is_Some (edges g !! e).

(** No node lists a conduit twice among its outputs, or among its
    inputs. *)
Definition conduits_distinct (g : @Graph EdgeType Ext) : Prop :=
  forall j x, nodes g !! j = Some x -> NoDup (outs x) /\ NoDup (ins x).

(** No two nodes write to one conduit, and no two nodes read from one. *)
Definition one_producer (g : @Graph EdgeType Ext) : Prop :=
  forall j1 j2 x1 x2 e,
    nodes g !! j1 = Some x1 -> nodes g !! j2 = Some x2 ->
    e ∈ outs x1 -> e ∈ outs x2 -> j1 = j2.

Definition one_consumer (g : @Graph EdgeType Ext) : Prop :=
  forall j1 j2 x1 x2 e,
    nodes g !! j1 = Some x1 -> nodes g !! j2 = Some x2 ->
    e ∈ ins x1 -> e ∈ ins x2 -> j1 = j2.

(** Every conduit of the store is an output of some node and an input of
    some node. *)
Definition conduits_connected (g : @Graph EdgeType Ext) : Prop :=
  forall e, is_Some (edges g !! e) ->
    (exists j x, nodes g !! j = Some x /\ e ∈ outs x) /\
    (exists k y, nodes g !! k = Some y /\ e ∈ ins y).

(** The inputs of a node and its parents go by index: as many of each, and
    the input at an index is an output of the parent at that index. *)
Definition inputs_follow_parents (g : @Graph EdgeType Ext) : Prop :=
  forall j x, nodes g !! j = Some x ->
    length (ins x) = length (parents x) /\
    forall i e p, ins x !! i = Some e -> parents x !! i = Some p ->
      exists px, nodes g !! p = Some px /\ e ∈ outs px.

(** The same for the outputs of a node and its children. *)
Definition outputs_follow_children (g : @Graph EdgeType Ext) : Prop :=
  forall j x, nodes g !! j = Some x ->
    length (outs x) = length (children x) /\
    forall i e c, outs x !! i = Some e -> children x !! i = Some c ->
      exists cx, nodes g !! c = Some cx /\ e ∈ ins cx.

(** The children and parents a node lists are nodes of the graph, and a
    parent lists the node among its children. *)
Definition relatives_known (g : @Graph EdgeType Ext) : Prop :=
  forall j x, nodes g !! j = Some x ->
    (forall c, c ∈ children x -> is_Some (nodes g !! c)) /\
    (forall p, p ∈ parents x ->
       exists px, nodes g !! p = Some px /\ j ∈ children px).

End WiringDefs.

#[global] Instance unlinked_dec {EdgeType Ext : Type} (x : @node EdgeType Ext) :
  Decision (unlinked x).
Proof. unfold unlinked. apply _. Defined.

(** The sample task wired: A to B, A to C (a mismatch), X to Y (a shape
    the constructor does not know) and A to B again; and the same with a
    constructor that knows every shape. *)
Definition sample_wiring : list (NodeId * NodeId) :=
  [(0, 1); (0, 2); (3, 4); (0, 1)]%nat.

Definition wired_graph : @Graph Shape nat :=
  default link_graph
    (link_seq Shape_String sample_newEdge sample_wiring link_graph).

Definition fully_wired_graph : @Graph Shape nat :=
  default link_graph
    (link_seq Shape_String any_newEdge sample_wiring link_graph).

Definition linked_AB_graph : @Graph Shape nat :=
  default link_graph
    (link_seq Shape_String sample_newEdge [(0, 1)]%nat link_graph).

Definition wired_A : @node Shape nat :=
  default node_A (nodes wired_graph !! 0%nat).

Definition wired_B : @node Shape nat :=
  default node_B (nodes wired_graph !! 1%nat).

Definition fully_wired_A : @node Shape nat :=
  default node_A (nodes fully_wired_graph !! 0%nat).

(** ** Lifecycle: callers of [Err] on a node that is still running *)

Section RunningDefs.

Context {EdgeType Ext : Type}.
Variable stack_dump : string.





End RunningDefs.



Definition reported_node : @node Shape nat :=
  default delivered_node (fst <$> Err delivered_node).

Definition numbered_key (reg : gmap string (string * gmap string string))
  : string := "node-" +:+ fmt_d (Z.of_nat (size reg)).

Definition restarted_node : @node Shape nat :=
  (start sample_key sample_duration reported_node sample_rt).1.

Definition rerun_node : @node Shape nat :=
  (start_goroutine sample_stack restarted_node []).1.1.

Definition started_A : @node Shape nat * @Runtime nat :=
  start numbered_key sample_duration node_A sample_rt.

Definition started_B : @node Shape nat * @Runtime nat :=
  start numbered_key sample_duration node_B started_A.2.

Definition fully_wired_A_trace : list Event :=
  (start_goroutine sample_stack
     (start sample_key sample_duration fully_wired_A sample_rt).1 []).1.2.

Definition linked_twice_graph : @Graph Shape nat :=
  default link_graph
    (link_seq Shape_String sample_newEdge [(0, 1); (0, 1)]%nat link_graph).

Definition linked_B : @node Shape nat :=
  default node_B (nodes linked_AB_graph !! 1%nat).

Definition linked_twice_B : @node Shape nat :=
  default node_B (nodes linked_twice_graph !! 1%nat).

(** The fully wired task after some data has gone through: every conduit
    has the backlog of [backlog_edge]. *)
Definition flowing_graph : @Graph Shape nat :=
  {| nodes := nodes fully_wired_graph;
     edges := (fun _ => backlog_edge) <$> edges fully_wired_graph |}.

(** Two concurrent writers of 5 and 9 to a cell that holds 0: both load 0,
    the first swaps, the second fails its swap, loads 5 and swaps. *)
Definition raced_cell : MaxDur.cell :=
  default (MaxDur.spawn Z id [5; 9] {| MaxDur.d := 0 |})
    (MaxDur.run [0; 1; 0; 1; 1; 1]%nat
       (MaxDur.spawn Z id [5; 9] {| MaxDur.d := 0 |})).

(** * Properties *)

(** ** 64-bit arithmetic *)

Lemma Int64_wrap_in_range z : Int64.in_range (Int64.wrap z).
Proof.
  unfold Int64.in_range, Int64.wrap, Int64.min_int, Int64.max_int.
  pose proof (Z.mod_pos_bound (z + 2 ^ 63) (2 ^ 64)) as Hb. lia.
Qed.

Lemma Int64_wrap_id z : Int64.in_range z -> Int64.wrap z = z.
Proof.
  unfold Int64.in_range, Int64.wrap, Int64.min_int, Int64.max_int.
  intros Hz. rewrite Z.mod_small; lia.
Qed.

Lemma Int64_wrap_wrap_add a b :
  Int64.wrap (Int64.wrap a + b) = Int64.wrap (a + b).
Proof.
  unfold Int64.wrap. f_equal.
  replace ((a + 2 ^ 63) mod 2 ^ 64 - 2 ^ 63 + b + 2 ^ 63)
    with ((a + 2 ^ 63) mod 2 ^ 64 + b) by lia.
  rewrite Zplus_mod_idemp_l. f_equal. lia.
Qed.

(** ** MaxDuration *)

Section MaxDurationFacts.

Import MaxDur.

Context {float64 : Type} (int64_of : float64 -> Z).

Lemma Set_loop_first fuel nxt v :
  Set_loop (S fuel) nxt v = Some (if nxt >? d v then {| d := nxt |} else v).
Proof.
  simpl. unfold Int, CompareAndSwapInt64.
  destruct (nxt >? d v); [|done].
  by rewrite Z.eqb_refl.
Qed.

Lemma max_with_step z0 z zs :
  max_with z0 (z :: zs) = max_with (Z.max z0 z) zs.
Proof. done. Qed.

Lemma max_with_ge z0 zs : z0 <= max_with z0 zs.
Proof.
  revert z0. induction zs as [|z zs IH]; intros z0; [done|].
  rewrite max_with_step. specialize (IH (Z.max z0 z)). lia.
Qed.

(** [max_with z0 zs] bounds every element and is one of them or [z0]. *)
Lemma max_with_spec z0 zs :
  (forall z, z ∈ zs -> z <= max_with z0 zs) /\
  (max_with z0 zs = z0 \/ max_with z0 zs ∈ zs).
Proof.
  revert z0. induction zs as [|z zs IH]; intros z0.
  - split; [intros z Hz; inversion Hz | by left].
  - rewrite max_with_step. destruct (IH (Z.max z0 z)) as [Hub Hin]. split.
    + intros y Hy. apply elem_of_cons in Hy as [->|Hy]; [|by apply Hub].
      pose proof (max_with_ge (Z.max z0 z) zs). lia.
    + destruct Hin as [Heq|Hin]; [|right; by apply elem_of_cons; right].
      rewrite Heq. destruct (Z.max_spec z0 z) as [[_ ->]|[_ ->]].
      * right. apply elem_of_cons. by left.
      * by left.
Qed.

Lemma SetAll_value fuel values v :
  SetAll float64 int64_of (S fuel) values v
  = Some {| d := max_with (d v) (map int64_of values) |}.
Proof.
  revert v. induction values as [|x xs IH]; intros v.
  - by destruct v.
  - cbn [SetAll]. unfold MaxDuration_Set. rewrite Set_loop_first.
    rewrite IH. cbn [map]. rewrite max_with_step. do 3 f_equal.
    destruct (Z.gtb_spec (int64_of x) (d v)); cbn [d]; lia.
Qed.

(** C5. Starting from 0, a call [Set(v)] returns, changes the stored value
    only when [int64(v)] exceeds the current one (and then stores it), and
    never lowers it; after [Set(v1)], ..., [Set(vn)] in sequence the value
    read by [Int()] is the largest of [int64(v1)], ..., [int64(vn)] and 0,
    and every [Set] along the way left the value at least as large as it
    found it. *)
Theorem MaxDuration_running_maximum :
  (forall fuel value v,
     exists v',
       MaxDuration_Set float64 int64_of (S fuel) value v = Some v' /\
       (d v' <> d v -> int64_of value > d v) /\
       (int64_of value > d v -> d v' = int64_of value) /\
       d v <= d v') /\
  (forall fuel values,
     exists v',
       SetAll float64 int64_of (S fuel) values {| d := 0 |} = Some v' /\
       Int v' = max_with 0 (map int64_of values) /\
       (forall z, z ∈ map int64_of values -> z <= Int v') /\
       0 <= Int v' /\
       (Int v' = 0 \/ Int v' ∈ map int64_of values)) /\
  (forall fuel values v v',
     SetAll float64 int64_of (S fuel) values v = Some v' -> d v <= d v').
Proof.
  split; [|split].
  - intros fuel value v. unfold MaxDuration_Set. rewrite Set_loop_first.
    eexists; split; [done|].
    destruct (Z.gtb_spec (int64_of value) (d v)); cbn [d]; lia.
  - intros fuel values. rewrite SetAll_value. eexists; split; [done|].
    unfold Int; cbn [d].
    destruct (max_with_spec 0 (map int64_of values)) as [Hub Hin].
    repeat split; [done| |done].
    apply max_with_ge.
  - intros fuel values v v'. rewrite SetAll_value. intros [= <-]. cbn [d].
    apply max_with_ge.
Qed.

End MaxDurationFacts.

Lemma MaxDuration_running_maximum_witness :
  exists v',
    MaxDur.SetAll Z id 1 [3; 7; 5] {| MaxDur.d := 0 |} = Some v' /\
    MaxDur.Int v' = 7.
Proof.
  destruct (proj1 (proj2 (MaxDuration_running_maximum (float64 := Z) id))
              0%nat [3; 7; 5]) as (v' & Hset & Hmax & _).
  exists v'. split; [exact Hset|]. rewrite Hmax. reflexivity.
Defined.

(** *** Concurrent writers of MaxDuration *)

Section MaxDurationConcurrent.

Import MaxDur.

Lemma writer_ok_mono dv dv' w : dv <= dv' -> writer_ok dv w -> writer_ok dv' w.
Proof. unfold writer_ok. destruct (at_ w); lia. Qed.

Lemma step_stored_mono d0 nexts i c c' :
  cell_inv d0 nexts c -> step i c = Some c' -> stored c <= stored c'.
Proof.
  intros (_ & _ & _ & Hall) Hstep. unfold step in Hstep.
  destruct (writers c !! i) as [w|] eqn:Hw; [|done].
  pose proof (Forall_lookup_1 _ _ _ _ Hall Hw) as Hok.
  unfold writer_step in Hstep. unfold writer_ok in Hok.
  destruct (at_ w) as [|cur|]; [| |done].
  - destruct (next w >? stored c); injection Hstep as <-; done.
  - destruct (Z.eqb_spec (stored c) cur); injection Hstep as <-; cbn; lia.
Qed.

Lemma map_next_insert i w w' ws :
  ws !! i = Some w -> next w' = next w ->
  map next (<[i := w']> ws) = map next ws.
Proof.
  intros Hw Hn. change (next <$> <[i := w']> ws = next <$> ws).
  rewrite list_fmap_insert, Hn.
  apply list_insert_id. by rewrite list_lookup_fmap, Hw.
Qed.

Lemma step_inv d0 nexts i c c' :
  cell_inv d0 nexts c -> step i c = Some c' -> cell_inv d0 nexts c'.
Proof.
  intros Hinv Hstep. pose proof (step_stored_mono _ _ _ _ _ Hinv Hstep) as Hmono.
  destruct Hinv as (Hge & Hmem & Hnexts & Hall). unfold step in Hstep.
  destruct (writers c !! i) as [w|] eqn:Hw; [|done].
  pose proof (Forall_lookup_1 _ _ _ _ Hall Hw) as Hok.
  assert (next w ∈ nexts) as Hwin.
  { rewrite <- Hnexts. apply list_elem_of_In, in_map, list_elem_of_In.
    by eapply list_elem_of_lookup_2. }
  unfold writer_step in Hstep. unfold writer_ok in Hok.
  destruct (at_ w) as [|cur|] eqn:Hat; [| |done].
  - destruct (Z.gtb_spec (next w) (stored c)); injection Hstep as <-;
      unfold cell_inv; cbn [stored writers];
      (split; [done|]; split; [done|]; split;
       [by erewrite map_next_insert|]);
      (apply Forall_insert; [done|]); unfold writer_ok; cbn; lia.
  - destruct (Z.eqb_spec (stored c) cur); injection Hstep as <-;
      unfold cell_inv; cbn [stored writers] in *.
    + split; [lia|]. split; [by right|]. split; [by erewrite map_next_insert|].
      apply Forall_insert.
      * eapply Forall_impl; [|exact Hall]. intros x. apply writer_ok_mono. lia.
      * unfold writer_ok; cbn; lia.
    + split; [done|]. split; [done|]. split; [by erewrite map_next_insert|].
      apply Forall_insert; [done|]. by unfold writer_ok.
Qed.

Lemma run_inv d0 nexts sched : forall c c',
  cell_inv d0 nexts c -> run sched c = Some c' ->
  cell_inv d0 nexts c' /\ stored c <= stored c'.
Proof.
  induction sched as [|i rest IH]; intros c c' Hinv Hrun; cbn in Hrun.
  - injection Hrun as <-. split; [done|lia].
  - destruct (step i c) as [c1|] eqn:Hstep; [|done].
    pose proof (step_inv _ _ _ _ _ Hinv Hstep) as Hinv1.
    pose proof (step_stored_mono _ _ _ _ _ Hinv Hstep).
    destruct (IH _ _ Hinv1 Hrun). split; [done|lia].
Qed.

Lemma max_with_unique z0 zs m :
  z0 <= m -> (forall z, z ∈ zs -> z <= m) -> (m = z0 \/ m ∈ zs) ->
  m = max_with z0 zs.
Proof.
  intros Hge Hub Hin.
  destruct (max_with_spec z0 zs) as [Hub' Hin'].
  pose proof (max_with_ge z0 zs).
  assert (m <= max_with z0 zs) by (destruct Hin as [->|Hin]; auto).
  assert (max_with z0 zs <= m); [|lia].
  destruct Hin' as [->|Hin']; auto.
Qed.

(** Sums over a list one element of which is replaced. *)
Lemma sum_list_map_insert {A : Type} (f : A -> nat) (l : list A) i x y :
  l !! i = Some x ->
  (sum_list (map f (<[i := y]> l)) + f x = sum_list (map f l) + f y)%nat.
Proof.
  revert i. induction l as [|a l IH]; intros [|i] Hi; try done.
  - injection Hi as ->.
    change (f y + sum_list (map f l) + f x
            = f x + sum_list (map f l) + f y)%nat. lia.
  - specialize (IH i Hi).
    change (sum_list (map f (<[S i := y]> (a :: l))))
      with (f a + sum_list (map f (<[i := y]> l)))%nat.
    change (sum_list (map f (a :: l))) with (f a + sum_list (map f l))%nat.
    lia.
Qed.

Lemma sum_list_map_bound {A : Type} (f f' : A -> nat) (l : list A) :
  (forall x, f' x <= f x + 2)%nat ->
  (sum_list (map f' l) <= sum_list (map f l) + 2 * length l)%nat.
Proof.
  intros Hle. induction l as [|a l IH]; [done|].
  change (f' a + sum_list (map f' l)
          <= f a + sum_list (map f l) + 2 * S (length l))%nat.
  specialize (Hle a). lia.
Qed.

Lemma sum_list_map_bound_at {A : Type} (f f' : A -> nat) (l : list A) i w :
  (forall x, f' x <= f x + 2)%nat ->
  l !! i = Some w ->
  (sum_list (map f' l) + f w + 2
   <= sum_list (map f l) + 2 * length l + f' w)%nat.
Proof.
  intros Hle. revert i. induction l as [|a l IH]; intros [|i] Hi; try done.
  - injection Hi as ->. pose proof (sum_list_map_bound f f' l Hle).
    change (f' w + sum_list (map f' l) + f w + 2
            <= f w + sum_list (map f l) + 2 * S (length l) + f' w)%nat. lia.
  - specialize (IH i Hi). specialize (Hle a).
    change (f' a + sum_list (map f' l) + f w + 2
            <= f a + sum_list (map f l) + 2 * S (length l) + f' w)%nat. lia.
Qed.

Lemma sum_list_map_le {A : Type} (f : A -> nat) (l : list A) (b : nat) :
  (forall x, f x <= b)%nat -> (sum_list (map f l) <= length l * b)%nat.
Proof.
  intros Hle. induction l as [|a l IH]; [done|].
  change (f a + sum_list (map f l) <= b + length l * b)%nat.
  specialize (Hle a). lia.
Qed.

Lemma writer_cost_raise k dv dv' w :
  dv <= dv' -> (writer_cost k dv' w <= writer_cost k dv w + 2)%nat.
Proof.
  intros Hle. unfold writer_cost, writer_weight.
  destruct (Z.gtb_spec (next w) dv'), (Z.gtb_spec (next w) dv); try lia;
    destruct (at_ w) as [|cur|]; try lia;
    destruct (Z.eqb_spec dv' cur), (Z.eqb_spec dv cur); lia.
Qed.

(** Every step of a writer lowers the measure: a failed swap costs the
    writer its turn, and a swap that succeeds retires its writer for
    good, which pays for the writers it sends back to their load. *)
Lemma step_measure d0 nexts i c c' :
  cell_inv d0 nexts c -> step i c = Some c' ->
  (cell_measure c' < cell_measure c)%nat.
Proof.
  intros (_ & _ & _ & Hall) Hstep. unfold step in Hstep.
  destruct (writers c !! i) as [w|] eqn:Hw; [|done].
  pose proof (Forall_lookup_1 _ _ _ _ Hall Hw) as Hok.
  unfold writer_step in Hstep. unfold writer_ok in Hok.
  unfold cell_measure.
  destruct (at_ w) as [|cur|] eqn:Hat; [| |done].
  - destruct (Z.gtb_spec (next w) (stored c)) as [Hgt|Hle];
      injection Hstep as <-; cbn [stored writers]; rewrite length_insert;
      match goal with
      | |- context [<[i := ?w']> _] =>
          pose proof (sum_list_map_insert
                        (writer_cost (length (writers c)) (stored c))
                        _ _ _ w' Hw) as Hsum;
          assert (writer_cost (length (writers c)) (stored c) w'
                  < writer_cost (length (writers c)) (stored c) w)%nat
      end;
      try lia;
      unfold writer_cost, writer_weight; cbn [next at_]; rewrite Hat;
      destruct (Z.gtb_spec (next w) (stored c)); try lia;
      rewrite Z.eqb_refl; lia.
  - destruct (Z.eqb_spec (stored c) cur) as [Heq|Hne];
      injection Hstep as <-; cbn [stored writers]; rewrite length_insert.
    + set (k := length (writers c)).
      set (w' := {| next := next w; at_ := Returned |}).
      pose proof (sum_list_map_insert (writer_cost k (next w)) _ _ _ w' Hw)
        as Hsum.
      assert (stored c <= next w) as Hraise by lia.
      pose proof (sum_list_map_bound_at
                    (writer_cost k (stored c)) (writer_cost k (next w))
                    (writers c) i w
                    (fun x => writer_cost_raise k _ _ x Hraise) Hw)
        as Hbound.
      fold k in Hbound.
      assert (writer_cost k (next w) w' = 0)%nat as Hw'.
      { unfold writer_cost, writer_weight, w'; cbn [next at_].
        destruct (Z.gtb_spec (next w) (next w)); lia. }
      assert (writer_cost k (stored c) w = 2 * k + 1)%nat as Hwc.
      { unfold writer_cost, writer_weight. rewrite Hat.
        rewrite (proj2 (Z.gtb_gt _ _)) by lia.
        by rewrite (proj2 (Z.eqb_eq _ _)) by lia. }
      lia.
    + match goal with
      | |- context [<[i := ?w']> _] =>
          pose proof (sum_list_map_insert
                        (writer_cost (length (writers c)) (stored c))
                        _ _ _ w' Hw) as Hsum;
          assert (writer_cost (length (writers c)) (stored c) w'
                  < writer_cost (length (writers c)) (stored c) w)%nat
      end; [|lia].
      unfold writer_cost, writer_weight; cbn [next at_]. rewrite Hat.
      rewrite (proj2 (Z.eqb_neq _ _)) by lia. lia.
Qed.

Lemma run_measure d0 nexts sched : forall c c',
  cell_inv d0 nexts c -> run sched c = Some c' ->
  (length sched + cell_measure c' <= cell_measure c)%nat.
Proof.
  induction sched as [|i rest IH]; intros c c' Hinv Hrun; cbn in Hrun.
  - injection Hrun as <-. cbn. lia.
  - destruct (step i c) as [c1|] eqn:Hstep; [|done].
    pose proof (step_measure _ _ _ _ _ Hinv Hstep).
    pose proof (IH _ _ (step_inv _ _ _ _ _ Hinv Hstep) Hrun). cbn. lia.
Qed.

(** A writer that has not returned can always move. *)
Lemma step_enabled i c w :
  writers c !! i = Some w -> at_ w <> Returned -> is_Some (step i c).
Proof.
  intros Hw Hat. unfold step, writer_step. rewrite Hw.
  destruct (at_ w) as [|cur|]; [| |done].
  - destruct (next w >? stored c); by eexists.
  - destruct (stored c =? cur); by eexists.
Qed.

Context {float64 : Type} (int64_of : float64 -> Z).

Lemma spawn_inv values v :
  cell_inv (d v) (map int64_of values) (spawn float64 int64_of values v).
Proof.
  unfold cell_inv, spawn; cbn. split; [lia|]. split; [by left|]. split.
  - rewrite map_map. done.
  - apply Forall_forall. intros w Hw.
    apply in_map_iff in Hw. destruct Hw as (x & <- & _). by unfold writer_ok.
Qed.

(** Under any interleaving of concurrent [Set(v1)], ..., [Set(vn)] the
    stored value never decreases, and once every writer has returned the
    value read is the largest of the initial value and
    [int64(v1)], ..., [int64(vn)]. *)
Theorem MaxDuration_concurrent_maximum values v sched c :
  run sched (spawn float64 int64_of values v) = Some c ->
  d v <= stored c /\
  (forall i c', step i c = Some c' -> stored c <= stored c') /\
  (all_returned c -> stored c = max_with (d v) (map int64_of values)).
Proof.
  intros Hrun.
  destruct (run_inv _ _ _ _ _ (spawn_inv values v) Hrun) as [Hinv Hmono].
  split; [exact Hmono|]. split.
  - intros i c'. by apply step_stored_mono with (d v) (map int64_of values).
  - intros Hret. destruct Hinv as (Hge & Hmem & Hnexts & Hall).
    apply max_with_unique; [done| |done].
    intros z Hz. rewrite <- Hnexts in Hz.
    rewrite list_elem_of_In in Hz. apply in_map_iff in Hz.
    destruct Hz as (w & <- & Hw).
    pose proof (proj1 (Forall_forall _ _) Hall w Hw) as Hok.
    pose proof (proj1 (Forall_forall _ _) Hret w Hw) as Hr.
    unfold writer_ok in Hok. by rewrite Hr in Hok.
Qed.

(** The retries end: whatever the schedule, [n] concurrent writers take at
    most [n * (2 * n + 3)] steps together, and a writer that has not
    returned is never stuck. *)
Theorem MaxDuration_concurrent_terminates values v sched c :
  run sched (spawn float64 int64_of values v) = Some c ->
  (length sched <= length values * (2 * length values + 3))%nat /\
  (forall i w, writers c !! i = Some w -> at_ w <> Returned ->
     is_Some (step i c)).
Proof.
  intros Hrun. split; [|intros i w; apply step_enabled].
  pose proof (run_measure _ _ _ _ _ (spawn_inv values v) Hrun) as Hm.
  assert (cell_measure (spawn float64 int64_of values v)
          <= length values * (2 * length values + 3))%nat as Hinit.
  { unfold cell_measure, spawn; cbn [stored writers].
    rewrite length_map.
    etransitivity;
      [apply (sum_list_map_le _ _ (2 * length values + 3))
      |by rewrite length_map].
    intros w. unfold writer_cost, writer_weight.
    destruct (next w >? d v); destruct (at_ w) as [|cur|];
      try destruct (d v =? cur); lia. }
  lia.
Qed.

End MaxDurationConcurrent.

(** ** Statistics read from the conduits *)

Section StatsFacts.

Context {EdgeType Ext : Type}.
Implicit Types (g : @Graph EdgeType Ext) (n : @node EdgeType Ext).

Lemma foldl_int64_add (f : EdgeId -> Z) (l : list EdgeId) (a : Z) :
  foldl (fun count e => Int64.add count (f e)) (Int64.wrap a) l
  = Int64.wrap (a + foldr Z.add 0 (map f l)).
Proof.
  revert a. induction l as [|e l IH]; intros a; cbn [foldl map foldr].
  - f_equal. lia.
  - unfold Int64.add at 2. rewrite Int64_wrap_wrap_add, IH. f_equal. lia.
Qed.

(** C10. [collectedCount()] is the [int64] sum of the emitted counts of
    the node's input conduits: the exact sum whenever that fits in an
    [int64], its wrap-around otherwise; it is 0 for a node without input
    conduits. *)
Theorem collectedCount_sums_inputs g n :
  let total := foldr Z.add 0 (map (Edge_emittedCount g) (ins n)) in
  collectedCount g n = Int64.wrap total /\
  (Int64.in_range total -> collectedCount g n = total) /\
  (ins n = [] -> collectedCount g n = 0).
Proof.
  intros total.
  assert (collectedCount g n = Int64.wrap total) as Hw.
  { unfold collectedCount. change 0 with (Int64.wrap 0) at 1.
    by rewrite foldl_int64_add. }
  split; [done|]. split.
  - intros Hr. rewrite Hw. by apply Int64_wrap_id.
  - intros Hnil. unfold collectedCount. by rewrite Hnil.
Qed.

Lemma readGroupStats_insert (e : Edge) {B : Type}
    (h : Z -> Z -> gmap string string -> list string -> B) :
  readGroupStats e
    (fun group c em tags dims (stats : gmap GroupID B) =>
       <[group := h c em tags dims]> stats) ∅
  = (fun st => h (es_collected st) (es_emitted st) (es_tags st) (es_dims st))
      <$> groupStats e.
Proof.
  unfold readGroupStats.
  apply (map_fold_weak_ind (fun r (m : gmap GroupID edgeStat) => r = _ <$> m)).
  - by rewrite fmap_empty.
  - intros i x m r _ ->. by rewrite fmap_insert.
Qed.

End StatsFacts.

Section GroupStatsFacts.

Context {EdgeType Ext : Type}.
Implicit Types (g : @Graph EdgeType Ext) (n : @node EdgeType Ext).

Lemma nodeStatsByGroup_cons g n out0 rest :
  outs n = out0 :: rest ->
  nodeStatsByGroup g n
  = Some (entry_of_collected <$> groupStats (edge_at g out0)).
Proof.
  intros Hout. unfold nodeStatsByGroup. rewrite Hout. f_equal.
  apply (readGroupStats_insert (edge_at g out0)
           (fun c _ tags dims =>
              {| Fields := {[ "emitted" := FInt64 c ]};
                 Tags := tags; Dimensions := dims |})).
Qed.

(** C6, as the code has it. For a node with at least one output conduit
    [nodeStatsByGroup()] returns a map with exactly one entry per group
    observed on the first output conduit, whatever the other output
    conduits and the children are: the field emitted holds the count the
    conduit has collected for the group (which the code takes as the
    node's emitted count), with the group's retained tags and dimension
    list. For a node without output conduits the result is the nil map,
    whatever its children are. *)
Theorem nodeStatsByGroup_first_output g n :
  (forall out0 rest, outs n = out0 :: rest ->
     exists stats,
       nodeStatsByGroup g n = Some stats /\
       forall group,
         stats !! group
         = entry_of_collected <$> groupStats (edge_at g out0) !! group) /\
  (outs n = [] -> nodeStatsByGroup g n = None).
Proof.
  split.
  - intros out0 rest Hout. rewrite (nodeStatsByGroup_cons _ _ _ _ Hout).
    eexists; split; [done|]. intros group. by rewrite lookup_fmap.
  - intros Hout. unfold nodeStatsByGroup. by rewrite Hout.
Qed.

End GroupStatsFacts.

Lemma collectedCount_sums_inputs_witness :
  Int64.in_range 7 /\ collectedCount sample_graph sample_mid = 7.
Proof.
  split; [by vm_compute|].
  apply (collectedCount_sums_inputs sample_graph sample_mid). by vm_compute.
Defined.

Lemma nodeStatsByGroup_first_output_witness :
  exists stats,
    nodeStatsByGroup sample_graph sample_src = Some stats /\
    forall group,
      stats !! group
      = entry_of_collected <$> groupStats (edge_at sample_graph 0%nat) !! group.
Proof.
  apply (proj1 (nodeStatsByGroup_first_output sample_graph sample_src)
           0%nat [1%nat]).
  reflexivity.
Defined.

(** C6 as stated fails: with a backlog on the first output conduit (group
    G1: 3 collected, 1 emitted) the entry of G1 is not the one made of the
    conduit's emitted count: its field emitted holds 3, the collected
    count, and not 1. *)
Lemma nodeStatsByGroup_emitted_field_not_emitted_count :
  exists stats st,
    nodeStatsByGroup sample_graph sample_src = Some stats /\
    groupStats (edge_at sample_graph 0%nat) !! "G1" = Some st /\
    es_collected st = 3 /\ es_emitted st = 1 /\
    stats !! "G1" <> Some (entry_of_emitted st) /\
    (exists ns, stats !! "G1" = Some ns /\
                Fields ns !! "emitted" = Some (FInt64 3)).
Proof.
  eexists _, _. split.
  { apply (nodeStatsByGroup_cons sample_graph sample_src 0%nat [1%nat]).
    reflexivity. }
  split; [by vm_compute|]. split; [done|]. split; [done|].
  rewrite lookup_fmap. split.
  - vm_compute. discriminate.
  - eexists. split; by vm_compute.
Qed.

(** ** Linking *)

Section LinkFacts.

Context {EdgeType : Type} `{!EqDecision EdgeType}.
Context (EdgeType_String : EdgeType -> string).
Context {Ext : Type}.
Context (newEdge : string -> string -> string -> EdgeType -> option Edge).
Implicit Types (g : @Graph EdgeType Ext) (n c : NodeId)
  (nr cr : @node EdgeType Ext).


Lemma lookup_update_node (f : node -> node) i g j :
  nodes (update_node f i g) !! j
  = if decide (i = j) then f <$> nodes g !! j else nodes g !! j.
Proof.
  unfold update_node; cbn [nodes with_nodes]. rewrite lookup_alter.
  by destruct (decide (i = j)) as [->|].
Qed.

Lemma edges_update_node (f : node -> node) i g :
  edges (update_node f i g) = edges g.
Proof. done. Qed.

Lemma nodes_with_edges g es : nodes (with_edges g es) = nodes g.
Proof. done. Qed.

Lemma lookup_update_node_eq (f : node -> node) i g :
  nodes (update_node f i g) !! i = f <$> nodes g !! i.
Proof. rewrite lookup_update_node. by rewrite decide_True. Qed.

Lemma lookup_update_node_ne (f : node -> node) i g j :
  i <> j -> nodes (update_node f i g) !! j = nodes g !! j.
Proof. intros Hne. rewrite lookup_update_node. by rewrite decide_False. Qed.

Ltac node_lookups :=
  repeat (rewrite lookup_update_node_eq
          || (rewrite lookup_update_node_ne by congruence)
          || rewrite nodes_with_edges).

Lemma alloc_edge_fresh g : edges g !! alloc_edge g = None.
Proof. apply not_elem_of_dom, is_fresh. Qed.

(** The three ways [addChild] ends. *)
Lemma addChild_mismatch g n c nr cr :
  nodes g !! n = Some nr -> nodes g !! c = Some cr ->
  provides nr <> wants cr ->
  addChild EdgeType_String newEdge g n c = Some (g, inr (mismatch_error EdgeType_String
                                   (provides nr) (wants cr))).
Proof.
  intros Hn Hc Hne. unfold addChild. rewrite Hn, Hc. cbn.
  by rewrite bool_decide_eq_true_2.
Qed.

Lemma addChild_unknown g n c nr cr :
  nodes g !! n = Some nr -> nodes g !! c = Some cr ->
  provides nr = wants cr ->
  newEdge (task nr) (name nr) (name cr) (provides nr) = None ->
  addChild EdgeType_String newEdge g n c
  = Some (update_node (fun x => set_children x (children x ++ [c])) n g,
          inr (unknown_edge_error EdgeType_String (provides nr))).
Proof.
  intros Hn Hc Heq Hnew. unfold addChild. rewrite Hn, Hc. cbn.
  rewrite bool_decide_eq_false_2 by (intros Hne; by apply Hne).
  by rewrite Hnew.
Qed.

Lemma addChild_linked g n c nr cr e :
  nodes g !! n = Some nr -> nodes g !! c = Some cr ->
  provides nr = wants cr ->
  newEdge (task nr) (name nr) (name cr) (provides nr) = Some e ->
  addChild EdgeType_String newEdge g n c
  = Some (update_node (addParentEdge (alloc_edge g)) c
            (with_edges
               (update_node (fun x => set_children x (children x ++ [c])) n g)
               (<[alloc_edge g := e]> (edges g))),
          inl (alloc_edge g)).
Proof.
  intros Hn Hc Heq Hnew. unfold addChild. rewrite Hn, Hc. cbn.
  rewrite bool_decide_eq_false_2 by (intros Hne; by apply Hne).
  by rewrite Hnew.
Qed.

Lemma linkChild_unfold g n c :
  linkChild EdgeType_String newEdge g n c
  = match addChild EdgeType_String newEdge g n c with
    | Some (g1, inl edge) =>
        Some (update_node (fun x => set_outs x (outs x ++ [edge])) n
                (update_node (addParent n) c g1), None)
    | Some (g1, inr e) => Some (g1, Some e)
    | None => None
    end.
Proof.
  unfold linkChild. by destruct (addChild EdgeType_String newEdge g n c) as [[g1 [edge|e]]|].
Qed.

(** What a successful [linkChild] leaves at the two nodes: the new conduit
    is last in [n.outs] and in [c.ins], [c] is last in [n.children] and [n]
    in [c.parents]; also when [n] and [c] are one node. *)
Lemma linkChild_linked g n c nr cr e :
  nodes g !! n = Some nr -> nodes g !! c = Some cr ->
  provides nr = wants cr ->
  newEdge (task nr) (name nr) (name cr) (provides nr) = Some e ->
  exists g' nr' cr',
    linkChild EdgeType_String newEdge g n c = Some (g', None) /\
    edges g' = <[alloc_edge g := e]> (edges g) /\
    nodes g' !! n = Some nr' /\ nodes g' !! c = Some cr' /\
    outs nr' = outs nr ++ [alloc_edge g] /\
    children nr' = children nr ++ [c] /\
    ins cr' = ins cr ++ [alloc_edge g] /\
    parents cr' = parents cr ++ [n] /\
    (n <> c -> outs cr' = outs cr /\ children cr' = children cr) /\
    (forall j, j <> n -> j <> c -> nodes g' !! j = nodes g !! j).
Proof.
  intros Hn Hc Heq Hnew.
  rewrite linkChild_unfold, (addChild_linked _ _ _ _ _ _ Hn Hc Heq Hnew).
  destruct (decide (n = c)) as [->|Hnc].
  - rewrite Hc in Hn. injection Hn as ->.
    eexists _, _, _. split; [done|]. split; [done|].
    node_lookups. rewrite Hc. do 6 (split; [done|]). split; [done|].
    intros j Hj _. by node_lookups.
  - eexists _, _, _. split; [done|]. split; [done|].
    node_lookups. rewrite Hn, Hc. do 6 (split; [done|]). split; [done|].
    intros j Hjn Hjc. by node_lookups.
Qed.

(** A failed [linkChild] creates no conduit and leaves [n.outs] and
    [c.ins] as they were; it is a mismatch or an unknown stream type. *)
Lemma linkChild_failed g n c nr cr g' e :
  nodes g !! n = Some nr -> nodes g !! c = Some cr ->
  linkChild EdgeType_String newEdge g n c = Some (g', Some e) ->
  edges g' = edges g /\
  outs <$> nodes g' !! n = Some (outs nr) /\
  ins <$> nodes g' !! c = Some (ins cr) /\
  ((provides nr <> wants cr /\ g' = g /\
    e = mismatch_error EdgeType_String (provides nr) (wants cr)) \/
   (provides nr = wants cr /\
    newEdge (task nr) (name nr) (name cr) (provides nr) = None /\
    e = unknown_edge_error EdgeType_String (provides nr))).
Proof.
  intros Hn Hc Hlink. rewrite linkChild_unfold in Hlink.
  destruct (decide (provides nr = wants cr)) as [Heq|Hne].
  - destruct (newEdge (task nr) (name nr) (name cr) (provides nr))
      as [ed|] eqn:Hnew.
    + by rewrite (addChild_linked _ _ _ _ _ _ Hn Hc Heq Hnew) in Hlink.
    + rewrite (addChild_unknown _ _ _ _ _ Hn Hc Heq Hnew) in Hlink.
      injection Hlink as <- <-. split; [done|].
      split; [|split; [|right; done]].
      * node_lookups. by rewrite Hn.
      * destruct (decide (n = c)) as [->|]; node_lookups; by rewrite Hc.
  - rewrite (addChild_mismatch _ _ _ _ _ Hn Hc Hne) in Hlink.
    injection Hlink as <- <-.
    rewrite Hn, Hc. split; [done|]. split; [done|]. split; [done|].
    by left.
Qed.

Lemma addChild_is_Some g n c g' r :
  addChild EdgeType_String newEdge g n c = Some (g', r) ->
  exists nr cr, nodes g !! n = Some nr /\ nodes g !! c = Some cr.
Proof.
  unfold addChild. intros H.
  destruct (nodes g !! n) as [nr|]; [|done].
  destruct (nodes g !! c) as [cr|]; [|done]. by eexists _, _.
Qed.

(** In a graph built by [linkChild] calls no node has more output
    conduits than children. *)
Lemma built_outs_le_children g :
  built EdgeType_String newEdge g ->
  forall j x, nodes g !! j = Some x ->
    (length (outs x) <= length (children x))%nat.
Proof.
  induction 1 as [g Hfresh _|g n c g' r _ IH Hlink]; intros j x Hj.
  - destruct (Hfresh _ _ Hj) as (_ & -> & _ & ->). done.
  - rewrite linkChild_unfold in Hlink.
    destruct (addChild EdgeType_String newEdge g n c) as [[g1 res]|] eqn:Hadd;
      [|done].
    destruct (addChild_is_Some _ _ _ _ _ Hadd) as (nr & cr & Hn & Hc).
    destruct (decide (provides nr = wants cr)) as [Heq|Hne].
    + destruct (newEdge (task nr) (name nr) (name cr) (provides nr))
        as [e|] eqn:Hnew.
      * destruct (linkChild_linked _ _ _ _ _ _ Hn Hc Heq Hnew)
          as (g2 & nr' & cr' & Hl & _ & Hn' & Hc' & Ho & Hch & _ & _ & Hcs & Hoth).
        rewrite linkChild_unfold, Hadd in Hl. rewrite Hl in Hlink.
        injection Hlink as <- <-.
        destruct (decide (j = n)) as [->|Hjn].
        { rewrite Hn' in Hj. injection Hj as <-. rewrite Ho, Hch.
          rewrite !length_app. cbn. specialize (IH _ _ Hn). lia. }
        destruct (decide (j = c)) as [->|Hjc].
        { rewrite Hc' in Hj. injection Hj as <-.
          destruct Hcs as [-> ->]; [congruence|]. by apply (IH c). }
        rewrite Hoth in Hj by done. by apply (IH j).
      * rewrite (addChild_unknown _ _ _ _ _ Hn Hc Heq Hnew) in Hadd.
        injection Hadd as <- <-. injection Hlink as <- <-.
        destruct (decide (j = n)) as [->|Hjn]; revert Hj; node_lookups.
        -- rewrite Hn. intros [= <-]. cbn. rewrite length_app. cbn.
           specialize (IH _ _ Hn). lia.
        -- apply IH.
    + rewrite (addChild_mismatch _ _ _ _ _ Hn Hc Hne) in Hadd.
      injection Hadd as <- <-. injection Hlink as <- <-. by apply (IH j).
Qed.

(** In a graph built by [linkChild] calls the output conduits of a node are
    distinct conduits of the graph. *)
Lemma built_outs_distinct g :
  built EdgeType_String newEdge g ->
  forall j x, nodes g !! j = Some x ->
    NoDup (outs x) /\ forall e, e ∈ outs x -> is_Some (edges g !! e).
Proof.
  induction 1 as [g Hfresh _|g n c g' r _ IH Hlink]; intros j x Hj.
  - destruct (Hfresh _ _ Hj) as (_ & _ & _ & ->).
    split; [constructor|]. intros e He. by apply elem_of_nil in He.
  - rewrite linkChild_unfold in Hlink.
    destruct (addChild EdgeType_String newEdge g n c) as [[g1 res]|] eqn:Hadd;
      [|done].
    destruct (addChild_is_Some _ _ _ _ _ Hadd) as (nr & cr & Hn & Hc).
    destruct (decide (provides nr = wants cr)) as [Heq|Hne].
    + destruct (newEdge (task nr) (name nr) (name cr) (provides nr))
        as [e|] eqn:Hnew.
      * destruct (linkChild_linked _ _ _ _ _ _ Hn Hc Heq Hnew)
          as (g2 & nr' & cr' & Hl & He & Hn' & Hc' & Ho & _ & _ & _ & Hcs & Hoth).
        rewrite linkChild_unfold, Hadd in Hl. rewrite Hl in Hlink.
        injection Hlink as <- <-. rewrite He.
        assert (forall y e' : EdgeId, y ∈ [e'] -> e' = y) as Hsingle
          by (intros y e' Hy; by apply list_elem_of_singleton in Hy).
        assert (forall k y, nodes g !! k = Some y ->
                  NoDup (outs y) /\
                  forall e', e' ∈ outs y ->
                    is_Some (<[alloc_edge g := e]> (edges g) !! e')) as Hold.
        { intros k y Hk. destruct (IH k y Hk) as [Hnd Hin]. split; [done|].
          intros e' He'. apply lookup_insert_is_Some'. right. by apply Hin. }
        destruct (decide (j = n)) as [->|Hjn].
        { rewrite Hn' in Hj. injection Hj as <-. rewrite Ho.
          destruct (IH n nr Hn) as [Hnd Hin].
          destruct (Hold n nr Hn) as [_ Hin']. split.
          - apply list.NoDup_app. split; [done|]. split.
            + intros y Hy Hy'. apply Hsingle in Hy'. subst y.
              apply Hin in Hy. rewrite alloc_edge_fresh in Hy.
              by destruct Hy.
            + apply NoDup_singleton.
          - intros e' He'. apply elem_of_app in He' as [He'|He'].
            + by apply Hin'.
            + apply Hsingle in He'. subst e'. rewrite lookup_insert_eq.
              by eexists. }
        destruct (decide (j = c)) as [->|Hjc].
        { rewrite Hc' in Hj. injection Hj as <-.
          destruct Hcs as [-> _]; [congruence|]. by apply (Hold c cr). }
        rewrite Hoth in Hj by done. by apply (Hold j x).
      * rewrite (addChild_unknown _ _ _ _ _ Hn Hc Heq Hnew) in Hadd.
        injection Hadd as <- <-. injection Hlink as <- <-.
        rewrite edges_update_node.
        destruct (decide (j = n)) as [->|Hjn]; revert Hj; node_lookups.
        -- rewrite Hn. intros [= <-]. by apply (IH n nr).
        -- apply IH.
    + rewrite (addChild_mismatch _ _ _ _ _ Hn Hc Hne) in Hadd.
      injection Hadd as <- <-. injection Hlink as <- <-. by apply (IH j).
Qed.

(** When the conduit constructor knows every stream type, every child has
    its conduit: the two lists of a node have the same length. *)
Lemma built_children_eq_outs g :
  (forall t p q ty, is_Some (newEdge t p q ty)) ->
  built EdgeType_String newEdge g ->
  forall j x, nodes g !! j = Some x -> length (children x) = length (outs x).
Proof.
  intros Hknown.
  induction 1 as [g Hfresh _|g n c g' r _ IH Hlink]; intros j x Hj.
  - by destruct (Hfresh _ _ Hj) as (_ & -> & _ & ->).
  - rewrite linkChild_unfold in Hlink.
    destruct (addChild EdgeType_String newEdge g n c) as [[g1 res]|] eqn:Hadd;
      [|done].
    destruct (addChild_is_Some _ _ _ _ _ Hadd) as (nr & cr & Hn & Hc).
    destruct (decide (provides nr = wants cr)) as [Heq|Hne].
    + destruct (Hknown (task nr) (name nr) (name cr) (provides nr))
        as [e Hnew].
      destruct (linkChild_linked _ _ _ _ _ _ Hn Hc Heq Hnew)
        as (g2 & nr' & cr' & Hl & _ & Hn' & Hc' & Ho & Hch & _ & _ & Hcs & Hoth).
      rewrite linkChild_unfold, Hadd in Hl. rewrite Hl in Hlink.
      injection Hlink as <- <-.
      destruct (decide (j = n)) as [->|Hjn].
      { rewrite Hn' in Hj. injection Hj as <-. rewrite Ho, Hch.
        rewrite !length_app. cbn. specialize (IH _ _ Hn). lia. }
      destruct (decide (j = c)) as [->|Hjc].
      { rewrite Hc' in Hj. injection Hj as <-.
        destruct Hcs as [-> ->]; [congruence|]. by apply (IH c). }
      rewrite Hoth in Hj by done. by apply (IH j).
    + rewrite (addChild_mismatch _ _ _ _ _ Hn Hc Hne) in Hadd.
      injection Hadd as <- <-. injection Hlink as <- <-. by apply (IH j).
Qed.

(** C2. The conduit constructor [newEdge] is declared in edge.go and is a
    parameter here; the specification has it make the conduit whenever the
    types agree, which is the first hypothesis. For every pair of nodes
    [n] and [c]: when [n]'s declared output type equals [c]'s declared
    input type, [linkChild(c)] on [n] succeeds, and the conduit the
    constructor made is new to the store and appended to [n]'s outputs and
    to [c]'s inputs. When the types differ it fails with the mismatch
    error and leaves the graph as it was. Every failure is that one: the
    types differ, no conduit is created, and [c]'s input list and [n]'s
    output list are as before. *)
Theorem linkChild_type_check g n c nr cr :
  (forall t p q ty, is_Some (newEdge t p q ty)) ->
  nodes g !! n = Some nr -> nodes g !! c = Some cr ->
  (provides nr = wants cr ->
   exists g' nr' cr' e ed,
     linkChild EdgeType_String newEdge g n c = Some (g', None) /\
     newEdge (task nr) (name nr) (name cr) (provides nr) = Some ed /\
     edges g !! e = None /\
     edges g' = <[e := ed]> (edges g) /\
     nodes g' !! n = Some nr' /\ nodes g' !! c = Some cr' /\
     outs nr' = outs nr ++ [e] /\
     ins cr' = ins cr ++ [e]) /\
  (provides nr <> wants cr ->
   linkChild EdgeType_String newEdge g n c
   = Some (g, Some (mismatch_error EdgeType_String (provides nr) (wants cr)))) /\
  (forall g' e,
     linkChild EdgeType_String newEdge g n c = Some (g', Some e) ->
     provides nr <> wants cr /\
     e = mismatch_error EdgeType_String (provides nr) (wants cr) /\
     g' = g /\
     edges g' = edges g /\
     outs <$> nodes g' !! n = Some (outs nr) /\
     ins <$> nodes g' !! c = Some (ins cr)).
Proof.
  intros Htotal Hn Hc. split; [|split].
  - intros Heq.
    destruct (Htotal (task nr) (name nr) (name cr) (provides nr))
      as [ed Hnew].
    destruct (linkChild_linked _ _ _ _ _ _ Hn Hc Heq Hnew)
      as (g' & nr' & cr' & Hl & He & Hn' & Hc' & Ho & _ & Hi & _).
    exists g', nr', cr', (alloc_edge g), ed.
    split; [done|]. split; [done|]. split; [apply alloc_edge_fresh|].
    done.
  - intros Hne. by rewrite linkChild_unfold,
      (addChild_mismatch _ _ _ _ _ Hn Hc Hne).
  - intros g' e Hl.
    destruct (linkChild_failed _ _ _ _ _ _ _ Hn Hc Hl)
      as (He & Ho & Hi & [(Hne & -> & ->)|(_ & Hnew & _)]).
    + done.
    + destruct (Htotal (task nr) (name nr) (name cr) (provides nr))
        as [ed Hed].
      congruence.
Qed.

(** C7. When [addChild(c)] fails because the conduit constructor returns
    nil, [c] has already been appended to [n.children]: the graph is not
    the one before the call, [c] has received no parent edge, no conduit
    exists that did not before, and [n.children] is longer than [n.outs]
    (given that it was not shorter before, as in every graph built by
    [linkChild] calls). [linkChild] returns that same graph and error. *)
Theorem addChild_unknown_edge_keeps_child g n c nr cr :
  nodes g !! n = Some nr -> nodes g !! c = Some cr ->
  provides nr = wants cr ->
  newEdge (task nr) (name nr) (name cr) (provides nr) = None ->
  (length (outs nr) <= length (children nr))%nat ->
  exists g' nr' cr',
    addChild EdgeType_String newEdge g n c
    = Some (g', inr (unknown_edge_error EdgeType_String (provides nr))) /\
    linkChild EdgeType_String newEdge g n c
    = Some (g', Some (unknown_edge_error EdgeType_String (provides nr))) /\
    g' <> g /\
    nodes g' !! n = Some nr' /\ nodes g' !! c = Some cr' /\
    children nr' = children nr ++ [c] /\
    outs nr' = outs nr /\
    (length (outs nr') < length (children nr'))%nat /\
    ins cr' = ins cr /\
    edges g' = edges g.
Proof.
  intros Hn Hc Heq Hnew Hle.
  pose proof (addChild_unknown _ _ _ _ _ Hn Hc Heq Hnew) as Hadd.
  set (g' := update_node (fun x => set_children x (children x ++ [c])) n g)
    in *.
  assert (nodes g' !! n = Some (set_children nr (children nr ++ [c]))) as Hn'.
  { subst g'. node_lookups. by rewrite Hn. }
  assert (exists cr', nodes g' !! c = Some cr' /\ ins cr' = ins cr)
    as (cr' & Hc' & Hins).
  { subst g'. destruct (decide (n = c)) as [->|]; node_lookups; rewrite Hc;
      by eexists. }
  exists g', (set_children nr (children nr ++ [c])), cr'.
  split; [done|]. split; [by rewrite linkChild_unfold, Hadd|]. split.
  { intros Hg. rewrite Hg, Hn in Hn'. injection Hn' as Hnr.
    apply (f_equal (fun x => length (children x))) in Hnr. cbn in Hnr.
    rewrite length_app in Hnr. cbn in Hnr. lia. }
  do 4 (split; [done|]). split; [|done].
  cbn. rewrite length_app. cbn. lia.
Qed.

(** In a graph built by [linkChild] calls, a failure on an unknown stream
    type always leaves more children than output conduits. *)
Corollary addChild_unknown_edge_in_built_graph g n c nr cr :
  built EdgeType_String newEdge g ->
  nodes g !! n = Some nr -> nodes g !! c = Some cr ->
  provides nr = wants cr ->
  newEdge (task nr) (name nr) (name cr) (provides nr) = None ->
  exists g' nr',
    linkChild EdgeType_String newEdge g n c
    = Some (g', Some (unknown_edge_error EdgeType_String (provides nr))) /\
    built EdgeType_String newEdge g' /\
    nodes g' !! n = Some nr' /\
    (length (outs nr') < length (children nr'))%nat.
Proof.
  intros Hbuilt Hn Hc Heq Hnew.
  pose proof (built_outs_le_children _ Hbuilt _ _ Hn) as Hle.
  pose proof (addChild_unknown _ _ _ _ _ Hn Hc Heq Hnew) as Hadd.
  eexists _, _. split; [by rewrite linkChild_unfold, Hadd|]. split.
  { eapply built_link; [exact Hbuilt|]. by rewrite linkChild_unfold, Hadd. }
  split; [by rewrite lookup_update_node_eq, Hn|].
  cbn. rewrite length_app. cbn. lia.
Qed.

End LinkFacts.

Lemma linkChild_type_check_witness :
  (exists g' nr' cr' e ed,
     linkChild Shape_String any_newEdge link_graph 0%nat 1%nat
     = Some (g', None) /\
     any_newEdge (task node_A) (name node_A) (name node_B) (provides node_A)
     = Some ed /\
     edges link_graph !! e = None /\
     edges g' = <[e := ed]> (edges link_graph) /\
     nodes g' !! 0%nat = Some nr' /\ nodes g' !! 1%nat = Some cr' /\
     outs nr' = outs node_A ++ [e] /\
     ins cr' = ins node_B ++ [e]) /\
  linkChild Shape_String any_newEdge link_graph 0%nat 2%nat
  = Some (link_graph,
          Some "cannot add child mismatched edges: batch -> stream"%string).
Proof.
  assert (forall t p q ty, is_Some (any_newEdge t p q ty)) as Htotal
    by (intros t p q ty; by eexists).
  split.
  - apply (proj1 (linkChild_type_check Shape_String any_newEdge link_graph
                    0%nat 1%nat node_A node_B Htotal eq_refl eq_refl)).
    reflexivity.
  - apply (proj1 (proj2 (linkChild_type_check Shape_String any_newEdge
                           link_graph 0%nat 2%nat node_A node_C
                           Htotal eq_refl eq_refl))).
    by vm_compute.
Defined.

Lemma addChild_unknown_edge_keeps_child_witness :
  exists g' nr' cr',
    addChild Shape_String sample_newEdge link_graph 3%nat 4%nat
    = Some (g', inr (unknown_edge_error Shape_String (provides node_X))) /\
    linkChild Shape_String sample_newEdge link_graph 3%nat 4%nat
    = Some (g', Some (unknown_edge_error Shape_String (provides node_X))) /\
    g' <> link_graph /\
    nodes g' !! 3%nat = Some nr' /\ nodes g' !! 4%nat = Some cr' /\
    children nr' = children node_X ++ [4%nat] /\
    outs nr' = outs node_X /\
    (length (outs nr') < length (children nr'))%nat /\
    ins cr' = ins node_Y /\
    edges g' = edges link_graph.
Proof.
  apply (addChild_unknown_edge_keeps_child Shape_String sample_newEdge
           link_graph 3%nat 4%nat node_X node_Y);
    [reflexivity | reflexivity | reflexivity | reflexivity | simpl; lia].
Defined.

(** ** Graph export *)

Section EdotFacts.

Context {EdgeType Ext : Type}.
Implicit Types (g : @Graph EdgeType Ext) (n : @node EdgeType Ext).

Lemma append_assoc (a b c : string) : (a +:+ b) +:+ c = a +:+ (b +:+ c).
Proof.
  induction a as [|x a IH]; [done|].
  change (String x ((a +:+ b) +:+ c) = String x (a +:+ (b +:+ c))).
  by f_equal.
Qed.

Lemma append_empty_r (a : string) : a +:+ EmptyString = a.
Proof.
  induction a as [|x a IH]; [done|].
  change (String x (a +:+ EmptyString) = String x a). by f_equal.
Qed.

Lemma Map_Do_append (m : StatMap) (f : string * string -> string) buf :
  Map_Do m (fun kv buf => buf +:+ f kv) buf = buf +:+ join (map f m).
Proof.
  unfold Map_Do. revert buf. induction m as [|kv m IH]; intros buf; cbn.
  - by rewrite append_empty_r.
  - by rewrite IH, append_assoc.
Qed.

(** The loop over the children while every index is in range. *)
Lemma edot_children_in_range line g n cs : forall i buf,
  (i + length cs <= length (outs n))%nat ->
  edot_children line g n i cs buf
  = (buf +:+ join (zip_with
                     (fun c out =>
                        line (name n) (Node_Name g c) (Edge_collectedCount g out))
                     cs (drop i (outs n))),
     EdotReturned).
Proof.
  induction cs as [|c cs IH]; intros i buf Hlen; cbn [edot_children].
  - cbn. by rewrite append_empty_r.
  - cbn [length] in Hlen.
    destruct (outs n !! i) as [out|] eqn:Hout.
    + rewrite IH by lia. rewrite (drop_S _ _ _ Hout). cbn.
      by rewrite append_assoc.
    + apply lookup_ge_None in Hout. lia.
Qed.

(** The loop stops at the first child whose index has no conduit. *)
Lemma edot_children_out_of_range line g n cs : forall i buf,
  (i <= length (outs n) < i + length cs)%nat ->
  exists written,
    edot_children line g n i cs buf
    = (buf +:+ written,
       EdotIndexOutOfRange (length (outs n)) (length (outs n))).
Proof.
  induction cs as [|c cs IH]; intros i buf Hlen; cbn [edot_children].
  - cbn in Hlen. lia.
  - cbn [length] in Hlen.
    destruct (outs n !! i) as [out|] eqn:Hout.
    + apply lookup_lt_Some in Hout.
      destruct (IH (S i) (buf +:+ line (name n) (Node_Name g c)
                                   (Edge_collectedCount g out)))
        as (w & Hw); [lia|].
      rewrite Hw. eexists. by rewrite append_assoc.
    + apply lookup_ge_None in Hout. exists EmptyString.
      rewrite append_empty_r. by replace i with (length (outs n)) by lia.
Qed.

Lemma edot_returns g n m buf labels :
  statMap n = Some m ->
  (length (children n) <= length (outs n))%nat ->
  edot g n buf labels
  = (buf +:+ node_declaration labels n m
       +:+ join (zip_with (edge_declaration labels g n) (children n) (outs n)),
     EdotReturned).
Proof.
  intros Hmap Hlen. unfold edot, node_declaration. rewrite Hmap.
  destruct labels.
  - rewrite (Map_Do_append _ (fun kv => fst kv +:+ "=" +:+ snd kv +:+ " ")).
    rewrite edot_children_in_range by (cbn; lia).
    rewrite drop_0, !append_assoc. done.
  - rewrite (Map_Do_append _
               (fun kv => fst kv +:+ "=" +:+ dq +:+ snd kv +:+ dq +:+ " ")).
    rewrite edot_children_in_range by (cbn; lia).
    rewrite drop_0, !append_assoc. done.
Qed.

(** On the nil statistics map of a node that was never started, [edot]
    writes the opening of the node declaration and panics. *)
Lemma edot_nil_map g n buf labels :
  statMap n = None ->
  edot g n buf labels = (buf +:+ node_opening labels n, EdotNilMap).
Proof.
  intros Hmap. unfold edot, node_opening. rewrite Hmap. by destruct labels.
Qed.

(** C8, as the code has it. For every node that has been started, so that
    its statistics map is live, and whose children each have their conduit
    at the same index of [outs] (as [linkChild] leaves every node when the
    conduit constructor makes the conduit), [edot(buf, labels)] returns
    after appending one declaration for the node, with every key and value
    of its statistics map in order, followed by one edge declaration per
    child, in order, with the collected count of the conduit at the
    child's index. With labels the statistics and the count sit in label
    attributes; without, every statistic is a quoted attribute of its own
    and the count is the attribute processed. *)
Theorem edot_renders_node_and_children g n m buf labels :
  statMap n = Some m ->
  (length (children n) <= length (outs n))%nat ->
  edot g n buf labels
  = (buf +:+ node_declaration labels n m
       +:+ join (zip_with (edge_declaration labels g n) (children n) (outs n)),
     EdotReturned) /\
  length (zip_with (edge_declaration labels g n) (children n) (outs n))
  = length (children n) /\
  node_declaration labels n m
  = node_opening labels n +:+ join (map (stat_text labels) m)
      +:+ (if labels then dq +:+ "];" +:+ nl else "];" +:+ nl).
Proof.
  intros Hmap Hlen. split; [by apply edot_returns|].
  split; [by apply length_zip_with_l|].
  unfold node_declaration, node_opening.
  destruct labels; by rewrite !append_assoc.
Qed.

(** In a graph built with a conduit constructor that makes a conduit for
    every stream type, [edot] returns for every node with a live
    statistics map. *)
Corollary edot_returns_in_linked_graph
    `{!EqDecision EdgeType} (EdgeType_String : EdgeType -> string)
    (newEdge : string -> string -> string -> EdgeType -> option Edge)
    g i n m buf labels :
  (forall t p q ty, is_Some (newEdge t p q ty)) ->
  built EdgeType_String newEdge g ->
  nodes g !! i = Some n ->
  statMap n = Some m ->
  edot g n buf labels
  = (buf +:+ node_declaration labels n m
       +:+ join (zip_with (edge_declaration labels g n) (children n) (outs n)),
     EdotReturned).
Proof.
  intros Hknown Hbuilt Hi Hmap. apply edot_returns; [done|].
  by rewrite (built_children_eq_outs _ _ _ Hknown Hbuilt _ _ Hi).
Qed.

End EdotFacts.

Lemma edot_renders_node_and_children_witness :
  edot sample_graph started_src "digraph {" false
  = ("digraph {"
       +:+ node_declaration false started_src
             [("avg_exec_time", "0ns")]
       +:+ join (zip_with (edge_declaration false sample_graph started_src)
                   (children started_src) (outs started_src)),
     EdotReturned) /\
  length (zip_with (edge_declaration false sample_graph started_src)
            (children started_src) (outs started_src))
  = length (children started_src) /\
  node_declaration false started_src [("avg_exec_time", "0ns")]
  = node_opening false started_src
      +:+ join (map (stat_text false) [("avg_exec_time", "0ns")])
      +:+ ("];" +:+ nl).
Proof.
  apply (edot_renders_node_and_children sample_graph started_src
           [("avg_exec_time"%string, "0ns"%string)] "digraph {" false).
  - reflexivity.
  - simpl. lia.
Defined.

(** The text for the started sample source node, spelled out. *)
Example edot_sample_attributes :
  fst (edot sample_graph started_src EmptyString false)
  = nl +:+ "src [avg_exec_time=" +:+ dq +:+ "0ns" +:+ dq +:+ " ];" +:+ nl
    +:+ "src -> mid [processed=" +:+ dq +:+ "5" +:+ dq +:+ "];" +:+ nl
    +:+ "src -> sink [processed=" +:+ dq +:+ "4" +:+ dq +:+ "];" +:+ nl.
Proof. by vm_compute. Qed.

(** C8 as stated fails for a node that was never started: the statistics
    map of the sample source node is nil, and [edot] on it writes the
    opening of the node declaration and panics in [n.statMap.Do]: the
    declaration is not finished, and no edge declaration is written for
    either of its two children. *)
Lemma edot_on_a_node_never_started_panics :
  statMap sample_src = None /\
  children sample_src = [1%nat; 2%nat] /\
  (forall labels,
     edot sample_graph sample_src EmptyString labels
     = (node_opening labels sample_src, EdotNilMap)) /\
  edot sample_graph sample_src EmptyString false
  = (nl +:+ "src [", EdotNilMap) /\
  ~ exists m,
      edot sample_graph sample_src EmptyString false
      = (node_declaration false sample_src m
           +:+ join (zip_with (edge_declaration false sample_graph sample_src)
                       (children sample_src) (outs sample_src)),
         EdotReturned).
Proof.
  split; [done|]. split; [done|]. split; [by intros [|]|].
  split; [done|]. intros [m Hm]. by vm_compute in Hm.
Qed.

(** ** Completion: [Err] *)

Section ErrFacts.

Context {EdgeType Ext : Type}.
Implicit Types (n : @node EdgeType Ext) (s : @ErrState EdgeType Ext)
  (v : option error).

Lemma Err_first n v :
  terminated n v ->
  Err n = Some (set_err (set_errCh (set_finished n true) []) v, v).
Proof. intros [Hch Hfin]. unfold Err. rewrite Hfin. cbn. by rewrite Hch. Qed.

Lemma Err_cached n : finished n = true -> Err n = Some (n, err n).
Proof. intros Hfin. unfold Err. by rewrite Hfin. Qed.

Lemma Err_times_cached k n :
  finished n = true -> Err_times k n = Some (n, replicate k (err n)).
Proof.
  intros Hfin. induction k as [|k IH]; [done|].
  cbn [Err_times]. by rewrite (Err_cached _ Hfin), IH.
Qed.

Lemma is_Some_lookup_insert (l : list ErrPc) i j pc :
  is_Some (<[i := pc]> l !! j) <-> is_Some (l !! j).
Proof. by rewrite !lookup_lt_is_Some, length_insert. Qed.

Lemma Err_critical_dec pc :
  Err_critical pc \/ pc = ErrCall \/ exists r, pc = ErrDone r.
Proof. unfold Err_critical. destruct pc; eauto 6. Qed.

Ltac split_insert H :=
  apply list_lookup_insert_Some in H as [(-> & <- & _)|(? & H)].

Lemma Err_step_inv v i s s' :
  Err_inv v s -> Err_step i s = Some s' -> Err_inv v s'.
Proof.
  intros (Hmx & Hhold & Hph) Hstep. unfold Err_step in Hstep.
  destruct (callers s !! i) as [pc|] eqn:Hi; [|done].
  pose proof (Hmx _ _ Hi) as Hmi.
  assert (forall j pc', j <> i -> callers s !! j = Some pc' ->
            mutex s = Some i -> pc' = ErrCall \/ exists r, pc' = ErrDone r)
    as Hothers.
  { intros j pc' Hne Hj Hm.
    destruct (Err_critical_dec pc') as [Hc|Hc]; [|done].
    apply (Hmx _ _ Hj) in Hc. congruence. }
  unfold Err_critical in Hmi.
  destruct pc as [| | | | |r].
  - (* Lock *)
    destruct (mutex s) as [h|] eqn:Hm; [done|]. injection Hstep as <-.
    unfold Err_inv, Err_phase, Err_move; cbn [subject mutex receives callers].
    split; [|split].
    + intros j pc Hj. split_insert Hj.
      * unfold Err_critical. intuition congruence.
      * rewrite (Hmx _ _ Hj). intuition congruence.
    + intros j [= <-]. apply is_Some_lookup_insert. by rewrite Hi.
    + destruct Hph as [(?&?&?&Hal)|[(?&?&?&[k Hk]&Hal)|(?&?&?&?&Hal)]].
      * left. do 3 (split; [done|]). intros j pc Hj. split_insert Hj; eauto.
      * apply (Hmx _ _) in Hk. unfold Err_critical in Hk. intuition congruence.
      * right; right. do 4 (split; [done|]).
        intros j pc Hj. split_insert Hj; eauto.
  - (* the test of finished *)
    assert (mutex s = Some i) as Hm by intuition congruence.
    destruct (finished (subject s)) eqn:Hfin; injection Hstep as <-;
      unfold Err_inv, Err_phase, Err_move; cbn [subject mutex receives callers];
      (split; [|split];
       [ intros j pc Hj; split_insert Hj;
         [unfold Err_critical; intuition congruence|by apply Hmx]
       | intros j Hj; apply is_Some_lookup_insert; by apply Hhold
       | ]).
    + destruct Hph as [(?&?&?&Hal)|[(?&?&?&_&Hal)|(?&?&?&?&Hal)]].
      * congruence.
      * specialize (Hal _ _ Hi); intuition congruence.
      * right; right. do 4 (split; [done|]).
        intros j pc Hj. split_insert Hj; eauto.
    + destruct Hph as [(?&?&?&Hal)|[(?&?&?&_&Hal)|(?&?&?&?&Hal)]];
        [|congruence|congruence].
      left. do 3 (split; [done|]). intros j pc Hj. split_insert Hj; eauto.
  - (* finished = true *)
    assert (mutex s = Some i) as Hm by intuition congruence.
    injection Hstep as <-.
    unfold Err_inv, Err_phase, Err_move; cbn [subject mutex receives callers].
    split; [|split].
    + intros j pc Hj. split_insert Hj;
        [unfold Err_critical; intuition congruence|by apply Hmx].
    + intros j Hj. apply is_Some_lookup_insert. by apply Hhold.
    + destruct Hph as [(?&?&?&Hal)|[(?&?&?&_&Hal)|(?&?&?&?&Hal)]].
      * right; left. do 3 (split; [done|]). split.
        { exists i. apply list_lookup_insert_eq. by eapply lookup_lt_Some. }
        intros j pc Hj. split_insert Hj; [by right|].
        destruct (Hothers j pc ltac:(congruence) Hj Hm) as [?|[r ->]];
          [by left|]. specialize (Hal _ _ Hj); intuition congruence.
      * specialize (Hal _ _ Hi); intuition congruence.
      * specialize (Hal _ _ Hi); intuition congruence.
  - (* the receive *)
    assert (mutex s = Some i) as Hm by intuition congruence.
    destruct (errCh (subject s)) as [|v0 rest] eqn:Hch; [done|].
    injection Hstep as <-.
    unfold Err_inv, Err_phase, Err_move; cbn [subject mutex receives callers].
    split; [|split].
    + intros j pc Hj. split_insert Hj;
        [unfold Err_critical; intuition congruence|by apply Hmx].
    + intros j Hj. apply is_Some_lookup_insert. by apply Hhold.
    + destruct Hph as [(?&?&?&Hal)|[(Hfin&Hv&Hr&_&Hal)|(?&?&?&?&Hal)]].
      * specialize (Hal _ _ Hi); intuition congruence.
      * rewrite Hch in Hv. injection Hv as -> ->. right; right. rewrite Hr.
        do 4 (split; [done|]).
        intros j pc Hj. split_insert Hj; [eauto|].
        destruct (Hothers j pc ltac:(congruence) Hj Hm) as [?|[r ->]];
          [by left|]. specialize (Hal _ _ Hj); intuition congruence.
      * specialize (Hal _ _ Hi); intuition congruence.
  - (* return and Unlock *)
    assert (mutex s = Some i) as Hm by intuition congruence.
    injection Hstep as <-.
    unfold Err_inv, Err_phase, Err_move; cbn [subject mutex receives callers].
    split; [|split].
    + intros j pc Hj. split_insert Hj.
      * unfold Err_critical. intuition congruence.
      * destruct (Hothers j pc ltac:(congruence) Hj Hm) as [->|[r ->]];
          unfold Err_critical; intuition congruence.
    + done.
    + destruct Hph as [(?&?&?&Hal)|[(?&?&?&_&Hal)|(?&?&Herr&?&Hal)]].
      * specialize (Hal _ _ Hi); intuition congruence.
      * specialize (Hal _ _ Hi); intuition congruence.
      * right; right. do 4 (split; [done|]).
        intros j pc Hj. split_insert Hj; [rewrite Herr; eauto|eauto].
  - done.
Qed.

(** A caller that runs alone does what the function [Err] does: three
    steps when the value is cached, five when it takes it from the
    channel, and it stays at the receive when the channel is empty. *)
Lemma Err_alone n :
  match Err n with
  | Some (n', r) =>
      exists sched,
        Err_run sched (Err_callers 1 n)
        = Some {| subject := n'; mutex := None;
                  receives := if finished n then 0%nat else 1%nat;
                  callers := [ErrDone r] |}
  | None =>
      exists s,
        Err_run [0; 0; 0]%nat (Err_callers 1 n) = Some s /\
        callers s = [ErrReceive] /\ Err_step 0 s = None
  end.
Proof.
  unfold Err. destruct (finished n) eqn:Hfin; cbn [negb].
  - exists [0; 0; 0]%nat. unfold Err_callers, Err_run, Err_step.
    cbn. rewrite Hfin. done.
  - cbn [errCh set_finished]. destruct (errCh n) as [|v rest] eqn:Hch.
    + eexists. unfold Err_callers, Err_run, Err_step.
      cbn. rewrite Hfin. cbn. split; [done|]. split; [done|].
      cbn. by rewrite Hch.
    + exists [0; 0; 0; 0; 0]%nat. unfold Err_callers, Err_run, Err_step.
      cbn. rewrite Hfin. cbn. rewrite Hch. done.
Qed.

Lemma Err_run_inv v sched : forall s s',
  Err_inv v s -> Err_run sched s = Some s' -> Err_inv v s'.
Proof.
  induction sched as [|i rest IH]; intros s s' Hinv Hrun; cbn in Hrun.
  - by injection Hrun as <-.
  - destruct (Err_step i s) as [s1|] eqn:Hstep; [|done].
    eapply IH; [|done]. by eapply Err_step_inv.
Qed.

Lemma Err_callers_inv k n v : terminated n v -> Err_inv v (Err_callers k n).
Proof.
  intros [Hch Hfin]. unfold Err_inv, Err_phase, Err_callers;
    cbn [subject mutex receives callers].
  split; [|split; [done|]].
  - intros i pc Hi. apply lookup_replicate in Hi as [-> _].
    unfold Err_critical. intuition congruence.
  - left. do 3 (split; [done|]). intros i pc Hi.
    apply lookup_replicate in Hi as [-> _]. by left.
Qed.

(** Every step brings its caller closer to its return. *)
Lemma Err_step_measure i s s' :
  Err_step i s = Some s' -> (Err_measure s' < Err_measure s)%nat.
Proof.
  unfold Err_step, Err_measure. intros Hstep.
  destruct (callers s !! i) as [pc|] eqn:Hi; [|done].
  destruct pc;
    repeat match type of Hstep with
           | context [match ?x with _ => _ end] => destruct x
           end;
    try done; injection Hstep as <-; cbn [callers Err_move];
    match goal with
    | |- context [<[i := ?pc']> _] =>
        pose proof (sum_list_map_insert Err_weight _ _ _ pc' Hi) as Hsum
    end; cbn [Err_weight] in Hsum; lia.
Qed.

Lemma Err_run_measure sched : forall s s',
  Err_run sched s = Some s' ->
  (length sched + Err_measure s' <= Err_measure s)%nat.
Proof.
  induction sched as [|i rest IH]; intros s s' Hrun; cbn in Hrun.
  - injection Hrun as <-. cbn. lia.
  - destruct (Err_step i s) as [s1|] eqn:Hstep; [|done].
    apply Err_step_measure in Hstep. apply IH in Hrun. cbn. lia.
Qed.

Lemma Err_callers_measure k n : Err_measure (Err_callers k n) = (5 * k)%nat.
Proof.
  unfold Err_measure, Err_callers; cbn [callers].
  induction k as [|k IH]; [done|]. cbn in *. lia.
Qed.

Lemma all_done_or_calling (l : list ErrPc) :
  (forall i pc, l !! i = Some pc -> pc = ErrCall \/ Err_done pc) ->
  Forall Err_done l \/ exists i, l !! i = Some ErrCall.
Proof.
  induction l as [|x l IH]; intros Hall; [by left|].
  destruct (Hall 0%nat x eq_refl) as [->|Hx]; [right; by exists 0%nat|].
  destruct IH as [Hd|[i Hi]].
  - intros i pc Hi. by apply (Hall (S i)).
  - left. by constructor.
  - right. by exists (S i).
Qed.

(** Until every caller has returned, some caller can move. *)
Lemma Err_progress v s :
  Err_inv v s ->
  Forall Err_done (callers s) \/ exists i s', Err_step i s = Some s'.
Proof.
  intros (Hmx & Hhold & Hph).
  destruct (mutex s) as [h|] eqn:Hm.
  - right. exists h. destruct (Hhold _ eq_refl) as [pc Hh].
    pose proof (proj2 (Hmx _ _ Hh) eq_refl) as Hc.
    unfold Err_step. rewrite Hh.
    destruct Hc as [-> | [-> | [-> | ->]]]; [|by eexists| |by eexists].
    + destruct (negb (finished (subject s))); by eexists.
    + destruct Hph as [(?&?&?&Hal)|[(?& -> &?&_&Hal)|(?&?&?&?&Hal)]];
        [|by eexists|]; specialize (Hal _ _ Hh); intuition congruence.
  - destruct (all_done_or_calling (callers s)) as [Hd|[i Hi]].
    + intros i pc Hi.
      destruct (Err_critical_dec pc) as [Hc|[?|?]]; [|by left|by right].
      apply (Hmx _ _ Hi) in Hc. congruence.
    + by left.
    + right. exists i. unfold Err_step. rewrite Hi, Hm. by eexists.
Qed.

(** C3. On a node whose goroutine has delivered [v], any number of calls
    of [Err] return [v]. One after the other: the first call takes the
    value from the channel, and every later call finds [finished] set and
    returns the cached value, leaving the node and the emptied channel as
    they are. Concurrently, under any schedule of the callers' steps: a
    caller that has returned has returned [v], and the channel has then
    been received from exactly once; no reachable state is stuck before
    every caller has returned, and a schedule takes at most five steps
    per caller. *)
Theorem Err_returns_the_one_result n v :
  terminated n v ->
  (forall k,
     let n1 := set_err (set_errCh (set_finished n true) []) v in
     Err_times (S k) n = Some (n1, replicate (S k) v) /\
     errCh n1 = [] /\ finished n1 = true /\ err n1 = v /\
     Err n1 = Some (n1, v)) /\
  (forall k sched s,
     Err_run sched (Err_callers k n) = Some s ->
     (forall i r, callers s !! i = Some (ErrDone r) ->
        r = v /\ receives s = 1%nat) /\
     (receives s <= 1)%nat /\
     (length sched <= 5 * k)%nat /\
     (Forall Err_done (callers s) \/ exists i s', Err_step i s = Some s')).
Proof.
  intros Hterm. split.
  - intros k n1. split; [|done].
    cbn [Err_times]. rewrite (Err_first _ _ Hterm).
    fold n1. by rewrite (Err_times_cached k n1).
  - intros k sched s Hrun.
    pose proof (Err_run_inv _ _ _ _ (Err_callers_inv k _ _ Hterm) Hrun)
      as Hinv.
    pose proof (Err_run_measure _ _ _ Hrun) as Hm.
    rewrite Err_callers_measure in Hm.
    split; [|split; [|split; [lia|by eapply Err_progress]]].
    + intros i r Hi. destruct Hinv as (_ & _ & Hph).
      destruct Hph as [(?&?&?&Hal)|[(?&?&?&_&Hal)|(?&?&?&?&Hal)]];
        specialize (Hal _ _ Hi); intuition congruence.
    + destruct Hinv as (_ & _ & Hph).
      destruct Hph as [(?&?&?&_)|[(?&?&?&_)|(?&?&?&?&_)]]; lia.
Qed.

End ErrFacts.

Lemma Err_returns_the_one_result_witness :
  terminated delivered_node (Some "disk full"%string) /\
  (exists n1,
     Err_times 3 delivered_node
     = Some (n1, replicate 3 (Some "disk full"%string)) /\
     errCh n1 = []) /\
  (forall s,
     Err_run [1; 1; 1; 1; 1; 0; 0; 0]%nat (Err_callers 2 delivered_node)
     = Some s ->
     forall i r, callers s !! i = Some (ErrDone r) ->
       r = Some "disk full"%string /\ receives s = 1%nat).
Proof.
  assert (terminated delivered_node (Some "disk full"%string)) as Hterm
    by (split; reflexivity).
  split; [exact Hterm|]. split.
  - eexists. split.
    + apply (proj1 (Err_returns_the_one_result delivered_node _ Hterm) 2%nat).
    + reflexivity.
  - intros s Hrun.
    apply (proj2 (Err_returns_the_one_result delivered_node _ Hterm)
             2%nat _ s Hrun).
Defined.

(** Two callers, the second first: both return the delivered error and
    the channel was received from once. *)
Example Err_two_callers :
  (fun s => (callers s, receives s, errCh (subject s)))
    <$> Err_run [1; 1; 1; 1; 1; 0; 0; 0]%nat (Err_callers 2 delivered_node)
  = Some ([ErrDone (Some "disk full"%string);
           ErrDone (Some "disk full"%string)], 1%nat, []).
Proof. reflexivity. Qed.

(** A caller cannot take the lock while another holds it. *)
Example Err_lock_excludes :
  Err_run [1; 0]%nat (Err_callers 2 delivered_node) = None.
Proof. reflexivity. Qed.

(** ** Lifecycle: [start] and [stop] *)

Section LifecycleFacts.

Context {EdgeType Ext : Type}.
Context (new_key : gmap string (string * gmap string string) -> string).
Context (Duration_String : Z -> string).
Context (stack_dump : string).
Implicit Types (n : @node EdgeType Ext) (rt : @Runtime Ext).

Lemma foldl_snoc_map {A B : Type} (f : A -> B) (l : list A) (tr : list B) :
  foldl (fun tr x => tr ++ [f x]) tr l = tr ++ map f l.
Proof.
  revert tr. induction l as [|x l IH]; intros tr; cbn.
  - by rewrite app_nil_r.
  - by rewrite IH, <- app_assoc.
Qed.

Lemma closeChildEdges_trace n tr :
  closeChildEdges n tr = tr ++ map EvClose (outs n).
Proof. apply foldl_snoc_map. Qed.

Lemma abortParentEdges_trace n tr :
  abortParentEdges n tr = tr ++ map EvAbort (ins n).
Proof. apply foldl_snoc_map. Qed.

(** The excerpt [runtime.Stack] writes fits the buffer it is given. *)
Lemma substring_length_le (s : string) (k : nat) :
  (String.length (substring 0 k s) <= k)%nat.
Proof.
  revert s. induction k as [|k IH]; intros [|a s]; cbn; try lia.
  specialize (IH s). lia.
Qed.

Lemma runtime_Stack_bounded len_buf :
  ((runtime_Stack stack_dump len_buf).2 <= len_buf)%nat /\
  (runtime_Stack stack_dump len_buf).2
  = String.length (runtime_Stack stack_dump len_buf).1.
Proof. split; [apply substring_length_le|done]. Qed.

(** What [start] leaves in the node before the goroutine runs: an empty
    channel; the conduits and the routines are as before. *)
Lemma start_node n rt :
  let n0 := (start new_key Duration_String n rt).1 in
  errCh n0 = [] /\ outs n0 = outs n /\ ins n0 = ins n /\
  runF n0 = runF n /\ stopF n0 = stopF n /\
  finished n0 = finished n /\ err n0 = err n /\
  statsKey n0 = new_key (registry rt).
Proof. done. Qed.

Lemma start_registers n rt :
  let '(n0, rt0) := start new_key Duration_String n rt in
  is_Some (registry rt0 !! statsKey n0).
Proof. cbn. rewrite lookup_insert_eq. by eexists. Qed.

(** The deferred function on an empty channel, for each way the run
    routine ends. *)
Lemma start_deferred_returned n e :
  errCh n = [] ->
  start_deferred stack_dump n e None
  = (set_errCh n [e],
     map EvClose (outs n) ++ unwinding n (Returns e) ++ [EvSend e], Exited).
Proof.
  intros Hch. unfold start_deferred, chan_send, recover.
  rewrite Hch, closeChildEdges_trace. cbn [length app].
  destruct e as [e|]; cbn [unwinding].
  - rewrite abortParentEdges_trace. rewrite decide_True by lia.
    by rewrite <- !app_assoc.
  - by rewrite decide_True by lia.
Qed.

Lemma start_deferred_panicking n r :
  errCh n = [] ->
  start_deferred stack_dump n None (Some r)
  = (set_errCh n [None], map EvClose (outs n) ++ [EvSend None], Crashed r).
Proof.
  intros Hch. unfold start_deferred, chan_send.
  rewrite Hch, closeChildEdges_trace. cbn [length app].
  by rewrite decide_True by lia.
Qed.

Lemma start_goroutine_trace n snapshot :
  errCh n = [] ->
  start_goroutine stack_dump n snapshot
  = (set_errCh n [delivered (runF n snapshot)],
     map EvClose (outs n) ++ unwinding n (runF n snapshot)
       ++ [EvSend (delivered (runF n snapshot))],
     exit_of (runF n snapshot)).
Proof.
  intros Hch. unfold start_goroutine.
  destruct (runF n snapshot) as [e|r].
  - by apply start_deferred_returned.
  - by apply start_deferred_panicking.
Qed.

Lemma closes_of_app tr1 tr2 : closes_of (tr1 ++ tr2) = closes_of tr1 ++ closes_of tr2.
Proof. apply omap_app. Qed.

Lemma aborts_of_app tr1 tr2 : aborts_of (tr1 ++ tr2) = aborts_of tr1 ++ aborts_of tr2.
Proof. apply omap_app. Qed.

Lemma sends_of_app tr1 tr2 : sends_of (tr1 ++ tr2) = sends_of tr1 ++ sends_of tr2.
Proof. apply omap_app. Qed.

Lemma closes_of_closes l : closes_of (map EvClose l) = l.
Proof. induction l as [|x l IH]; [done|]. cbn. by f_equal. Qed.

Lemma aborts_of_aborts l : aborts_of (map EvAbort l) = l.
Proof. induction l as [|x l IH]; [done|]. cbn. by f_equal. Qed.

Lemma closes_of_aborts l : closes_of (map EvAbort l) = [].
Proof. by induction l. Qed.

Lemma aborts_of_closes l : aborts_of (map EvClose l) = [].
Proof. by induction l. Qed.

Lemma sends_of_closes l : sends_of (map EvClose l) = [].
Proof. by induction l. Qed.

Lemma sends_of_aborts l : sends_of (map EvAbort l) = [].
Proof. by induction l. Qed.

Lemma logs_of_app tr1 tr2 : logs_of (tr1 ++ tr2) = logs_of tr1 ++ logs_of tr2.
Proof. apply omap_app. Qed.

Lemma logs_of_closes l : logs_of (map EvClose l) = [].
Proof. by induction l. Qed.

Lemma logs_of_aborts l : logs_of (map EvAbort l) = [].
Proof. by induction l. Qed.

(** What the trace of the goroutine holds, by kind of call. *)
Lemma cleanup_trace_by_kind n (o : RunOutcome) :
  let tr := map EvClose (outs n) ++ unwinding n o ++ [EvSend (delivered o)] in
  closes_of tr = outs n /\
  aborts_of tr = match o with Returns (Some _) => ins n | _ => [] end /\
  logs_of tr = match o with Returns (Some e) => ["E! " +:+ e] | _ => [] end /\
  sends_of tr = [delivered o].
Proof.
  intros tr. subst tr.
  rewrite !closes_of_app, !aborts_of_app, !logs_of_app, !sends_of_app.
  rewrite closes_of_closes, aborts_of_closes, logs_of_closes, sends_of_closes.
  destruct o as [[e|]|r]; cbn [unwinding delivered].
  - rewrite !closes_of_app, !aborts_of_app, !logs_of_app, !sends_of_app.
    rewrite closes_of_aborts, aborts_of_aborts, logs_of_aborts, sends_of_aborts.
    cbn. by rewrite !app_nil_r.
  - cbn. by rewrite !app_nil_r.
  - cbn. by rewrite !app_nil_r.
Qed.

(** C4. When the run routine of a started node ends, whether it returns
    nil, returns an error or panics, the goroutine first closes every
    output conduit, once each and in order; then, only if the run routine
    returned an error, it aborts every input conduit and logs the error
    (after a nil return, and after a panic, no input is aborted and
    nothing is logged); and last it sends exactly one value, the returned
    error or nil, which is then the content of the completion channel. *)
Theorem start_cleanup_in_order n rt snapshot :
  let n0 := (start new_key Duration_String n rt).1 in
  let o := runF n snapshot in
  exists tr,
    start_goroutine stack_dump n0 snapshot
    = (set_errCh n0 [delivered o], tr, exit_of o) /\
    tr = map EvClose (outs n) ++ unwinding n o ++ [EvSend (delivered o)] /\
    closes_of tr = outs n /\
    aborts_of tr = match o with Returns (Some _) => ins n | _ => [] end /\
    logs_of tr = match o with Returns (Some e) => ["E! " +:+ e] | _ => [] end /\
    sends_of tr = [delivered o] /\
    errCh (set_errCh n0 [delivered o]) = [delivered o].
Proof.
  intros n0 o.
  exists (map EvClose (outs n) ++ unwinding n o ++ [EvSend (delivered o)]).
  split; [by apply (start_goroutine_trace n0 snapshot)|].
  split; [done|].
  destruct (cleanup_trace_by_kind n o) as (? & ? & ? & ?). done.
Qed.

(** The order of the calls when the run routine panics: the recovery and
    the unwinding sit under the test of [err], which is still nil. *)
Lemma start_goroutine_panic n snapshot r :
  errCh n = [] -> runF n snapshot = Panics r ->
  start_goroutine stack_dump n snapshot
  = (set_errCh n [None], map EvClose (outs n) ++ [EvSend None], Crashed r).
Proof.
  intros Hch Hrun. rewrite (start_goroutine_trace _ _ Hch), Hrun. done.
Qed.

(** C9, as the code has it. [stop()] calls the stop routine when one is
    set, on every call, and then deregisters the statistics handle of the
    node. It writes no field of the node, so the completion cell and what
    the goroutine of [start] does are as without the call. After [start],
    the key is registered, and after [stop] it is not. A second [stop]
    leaves the registry as the first left it and calls the stop routine
    once more: it changes nothing when no stop routine is set or the stop
    routine itself is idempotent. *)
Theorem stop_releases n rt :
  (stop n rt).1 = n /\
  start_goroutine stack_dump (stop n rt).1 = start_goroutine stack_dump n /\
  registry (stop n rt).2 = delete (statsKey n) (registry rt) /\
  ext (stop n rt).2
  = match stopF n with Some f => f (ext rt) | None => ext rt end /\
  (let '(n0, rt0) := start new_key Duration_String n rt in
   is_Some (registry rt0 !! statsKey n0) /\
   registry (stop n0 rt0).2 !! statsKey n0 = None) /\
  registry (stop n (stop n rt).2).2 = registry (stop n rt).2 /\
  ext (stop n (stop n rt).2).2
  = match stopF n with Some f => f (f (ext rt)) | None => ext rt end /\
  ((forall f, stopF n = Some f -> forall x, f (f x) = f x) ->
   stop n (stop n rt).2 = stop n rt).
Proof.
  split; [done|]. split; [done|].
  split; [by unfold stop; destruct (stopF n)|].
  split; [by unfold stop; destruct (stopF n)|].
  split.
  { split; [apply start_registers|]. cbn. destruct (stopF n); cbn;
      apply lookup_delete_eq. }
  split.
  { unfold stop, DeleteStatistics; destruct (stopF n); cbn;
      apply delete_delete_eq. }
  split; [by unfold stop; destruct (stopF n)|].
  intros Hidem. unfold stop, DeleteStatistics.
  destruct (stopF n) as [f|] eqn:Hf; cbn; f_equal.
  - rewrite (Hidem f eq_refl). f_equal. apply delete_delete_eq.
  - f_equal. apply delete_delete_eq.
Qed.

End LifecycleFacts.

(** In a graph built by [linkChild] calls the output conduits of a node
    are distinct, so the goroutine of [start] closes each of them exactly
    once, however the run routine ends. *)
Corollary start_closes_each_output_once
    {EdgeType : Type} `{!EqDecision EdgeType}
    (EdgeType_String : EdgeType -> string) {Ext : Type}
    (newEdge : string -> string -> string -> EdgeType -> option Edge)
    (new_key : gmap string (string * gmap string string) -> string)
    (Duration_String : Z -> string) (stack_dump : string)
    (g : @Graph EdgeType Ext) (i : NodeId) (n : @node EdgeType Ext)
    (rt : @Runtime Ext) (snapshot : list Byte.byte) :
  built EdgeType_String newEdge g ->
  nodes g !! i = Some n ->
  exists n' tr exit,
    start_goroutine stack_dump (start new_key Duration_String n rt).1 snapshot
    = (n', tr, exit) /\
    closes_of tr = outs n /\ NoDup (closes_of tr).
Proof.
  intros Hbuilt Hi.
  eexists _, _, _. split.
  { by apply (start_goroutine_trace stack_dump
                (start new_key Duration_String n rt).1 snapshot). }
  destruct (cleanup_trace_by_kind n (runF n snapshot)) as (Hcl & _).
  split; [exact Hcl|].
  change (NoDup (closes_of (map EvClose (outs n)
                              ++ unwinding n (runF n snapshot)
                              ++ [EvSend (delivered (runF n snapshot))]))).
  rewrite Hcl. by destruct (built_outs_distinct _ _ _ Hbuilt _ _ Hi).
Qed.

Lemma start_cleanup_in_order_witness :
  exists n' tr,
    start_goroutine sample_stack
      (start sample_key sample_duration failing_node sample_rt).1 []
    = (n', tr, Exited) /\
    errCh n' = [Some "disk full"%string] /\
    closes_of tr = [1%nat] /\ aborts_of tr = [0%nat] /\
    logs_of tr = ["E! disk full"%string] /\
    sends_of tr = [Some "disk full"%string].
Proof.
  destruct (start_cleanup_in_order sample_key sample_duration sample_stack
              failing_node sample_rt [])
    as (tr & Hrun & _ & Hcl & Hab & Hlog & Hsend & Hch).
  eexists _, tr. split; [exact Hrun|]. split; [exact Hch|].
  split; [exact Hcl|]. split; [exact Hab|]. split; [exact Hlog|exact Hsend].
Defined.

Lemma start_cleanup_in_order_example :
  start_goroutine sample_stack
    (start sample_key sample_duration failing_node sample_rt).1 []
  = (set_errCh (start sample_key sample_duration failing_node sample_rt).1
       [Some "disk full"%string],
     [EvClose 1%nat; EvAbort 0%nat; EvLog "E! disk full";
      EvSend (Some "disk full"%string)],
     Exited).
Proof. reflexivity. Qed.

(** C1 fails on the code. A node with input conduit 0 and output conduit
    1 whose run routine panics with boom: the goroutine closes the
    output, sends nil to the completion channel and dies of the panic. The
    input is not aborted, nothing is logged, no error with a stack
    excerpt is made, and [Err] returns nil. *)
Theorem start_panic_is_not_converted :
  let n0 := (start sample_key sample_duration panicking_node sample_rt).1 in
  runF panicking_node [] = Panics "boom" /\
  start_goroutine sample_stack n0 []
  = (set_errCh n0 [None], [EvClose 1%nat; EvSend None], Crashed "boom") /\
  snd <$> Err (set_errCh n0 [None]) = Some None.
Proof. repeat split. Qed.

Lemma stop_releases_witness :
  stop (mk_node "W" Stream Stream run_ok (Some (fun x : nat => 7%nat)))
    (stop (mk_node "W" Stream Stream run_ok (Some (fun x : nat => 7%nat)))
       sample_rt).2
  = stop (mk_node "W" Stream Stream run_ok (Some (fun x : nat => 7%nat)))
      sample_rt.
Proof.
  apply (stop_releases sample_key sample_duration sample_stack
           (mk_node "W" Stream Stream run_ok (Some (fun x : nat => 7%nat)))
           sample_rt).
  intros f [= <-] x. reflexivity.
Defined.

(** C9 as stated fails: the stop routine of this node counts its calls,
    and a second [stop] calls it a second time. *)
Lemma stop_twice_calls_stop_routine_twice :
  ext (stop counting_node sample_rt).2 = 1%nat /\
  ext (stop counting_node (stop counting_node sample_rt).2).2 = 2%nat /\
  stop counting_node (stop counting_node sample_rt).2
  <> stop counting_node sample_rt.
Proof.
  split; [done|]. split; [done|].
  intros H. apply (f_equal (fun x => ext x.2)) in H. cbn in H. discriminate H.
Qed.

(** * Further properties *)

(** ** Wiring *)

Section WiringFacts.

Context {EdgeType : Type} `{!EqDecision EdgeType}.
Context (EdgeType_String : EdgeType -> string).
Context {Ext : Type}.
Context (newEdge : string -> string -> string -> EdgeType -> option Edge).
Implicit Types (g : @Graph EdgeType Ext) (n c j : NodeId)
  (x nr cr : @node EdgeType Ext) (oe : option EdgeId).

(** The lists of a node after the writes of a link. *)
Lemma link_update_lists n c oe j x :
  outs (link_update n c oe j x)
  = outs x ++ (if decide (j = n) then option_list oe else []) /\
  ins (link_update n c oe j x)
  = ins x ++ (if decide (j = c) then option_list oe else []) /\
  children (link_update n c oe j x)
  = children x ++ (if decide (j = n) then [c] else []) /\
  parents (link_update n c oe j x)
  = parents x ++ (if decide (j = c) then (fun _ => n) <$> option_list oe else []).
Proof.
  unfold link_update. destruct oe as [e|];
    destruct (decide (j = n)), (decide (j = c)); cbn;
    rewrite ?app_nil_r; done.
Qed.

(** A link writes nothing else. *)
Lemma link_update_rest n c oe j x :
  let x' := link_update n c oe j x in
  task x' = task x /\ taskType x' = taskType x /\ name x' = name x /\
  desc x' = desc x /\ provides x' = provides x /\ wants x' = wants x /\
  runF x' = runF x /\ stopF x' = stopF x /\ errCh x' = errCh x /\
  err x' = err x /\ finished x' = finished x /\
  statsKey x' = statsKey x /\ statMap x' = statMap x.
Proof.
  unfold link_update. destruct oe as [e|];
    destruct (decide (j = n)), (decide (j = c)); done.
Qed.

Lemma link_update_other n c oe j x :
  j <> n -> j <> c -> link_update n c oe j x = x.
Proof.
  intros Hn Hc. unfold link_update.
  destruct oe; rewrite !decide_False by done; done.
Qed.

(** The three ways [linkChild] ends, with the graph it leaves: the same
    graph after a mismatch, and otherwise the writes of [link_update] at
    every node, with a new conduit in the store exactly when the
    constructor made one. *)
Lemma linkChild_effect g n c g' r :
  linkChild EdgeType_String newEdge g n c = Some (g', r) ->
  exists nr cr,
    nodes g !! n = Some nr /\ nodes g !! c = Some cr /\
    ((provides nr <> wants cr /\ g' = g /\
      r = Some (mismatch_error EdgeType_String (provides nr) (wants cr))) \/
     (provides nr = wants cr /\
      newEdge (task nr) (name nr) (name cr) (provides nr) = None /\
      r = Some (unknown_edge_error EdgeType_String (provides nr)) /\
      edges g' = edges g /\
      forall j, nodes g' !! j = link_update n c None j <$> nodes g !! j) \/
     (provides nr = wants cr /\
      exists ed,
        newEdge (task nr) (name nr) (name cr) (provides nr) = Some ed /\
        r = None /\
        edges g' = <[alloc_edge g := ed]> (edges g) /\
        forall j,
          nodes g' !! j
          = link_update n c (Some (alloc_edge g)) j <$> nodes g !! j)).
Proof.
  intros Hlink. rewrite linkChild_unfold in Hlink.
  destruct (addChild EdgeType_String newEdge g n c) as [[g1 res]|] eqn:Hadd;
    [|done].
  destruct (addChild_is_Some _ _ _ _ _ _ _ Hadd) as (nr & cr & Hn & Hc).
  exists nr, cr. split; [done|]. split; [done|].
  destruct (decide (provides nr = wants cr)) as [Heq|Hne].
  - right.
    destruct (newEdge (task nr) (name nr) (name cr) (provides nr))
      as [ed|] eqn:Hnew.
    + right. split; [done|]. exists ed. split; [done|].
      rewrite (addChild_linked _ _ _ _ _ _ _ _ Hn Hc Heq Hnew) in Hadd.
      injection Hadd as <- <-. injection Hlink as <- <-.
      split; [done|]. split; [done|]. intros j.
      rewrite !lookup_update_node, nodes_with_edges, lookup_update_node.
      unfold link_update.
      destruct (nodes g !! j) as [x|]; repeat case_decide; subst;
        try congruence; done.
    + left. rewrite (addChild_unknown _ _ _ _ _ _ _ Hn Hc Heq Hnew) in Hadd.
      injection Hadd as <- <-. injection Hlink as <- <-.
      do 4 (split; [done|]). intros j. rewrite lookup_update_node.
      unfold link_update.
      destruct (nodes g !! j) as [x|]; repeat case_decide; subst;
        try congruence; done.
  - left. rewrite (addChild_mismatch _ _ _ _ _ _ _ Hn Hc Hne) in Hadd.
    injection Hadd as <- <-. by injection Hlink as <- <-.
Qed.

(** Graphs built by [linkChild] calls, by the writes of each call. *)
Lemma built_effect_ind (P : @Graph EdgeType Ext -> Prop) :
  (forall g, (forall i x, nodes g !! i = Some x -> unlinked x) ->
             edges g = ∅ -> P g) ->
  (forall g n c oe g',
     built EdgeType_String newEdge g -> P g ->
     is_Some (nodes g !! n) -> is_Some (nodes g !! c) ->
     (forall j, nodes g' !! j = link_update n c oe j <$> nodes g !! j) ->
     match oe with
     | None => edges g' = edges g
     | Some e => edges g !! e = None /\
                 exists ed, edges g' = <[e := ed]> (edges g)
     end ->
     (oe = None -> exists t p q ty, newEdge t p q ty = None) ->
     P g') ->
  forall g, built EdgeType_String newEdge g -> P g.
Proof.
  intros Hfresh Hstep. induction 1 as [g H1 H2|g n c g' r Hb IH Hlink].
  - by apply Hfresh.
  - destruct (linkChild_effect _ _ _ _ _ Hlink)
      as (nr & cr & Hn & Hc & [(_ & -> & _)|[Hunk|Hok]]); [done| |].
    + destruct Hunk as (_ & Hnew & _ & He & Hnodes).
      apply (Hstep g n c None g'); try done; [by eexists..|].
      intros _. by eexists _, _, _, _.
    + destruct Hok as (_ & ed & _ & _ & He & Hnodes).
      apply (Hstep g n c (Some (alloc_edge g)) g'); try done; [by eexists..|].
      split; [apply alloc_edge_fresh|by exists ed].
Qed.

Lemma option_list_lookup {A : Type} (o : option A) k a :
  option_list o !! k = Some a -> o = Some a.
Proof.
  destruct o as [b|]; cbn; intros H; [|by destruct k].
  by apply list_lookup_singleton_Some in H as [_ <-].
Qed.

Lemma const_option_list_lookup {A B : Type} (o : option A) (b : B) k b' :
  ((fun _ => b) <$> option_list o) !! k = Some b' -> b' = b /\ is_Some o.
Proof.
  destruct o as [a|]; cbn; intros H; [|by destruct k].
  apply list_lookup_singleton_Some in H as [_ <-]. by eauto.
Qed.

Section Effect.

Variables (g g' : @Graph EdgeType Ext) (n c : NodeId) (oe : option EdgeId).
Hypothesis Hn : is_Some (nodes g !! n).
Hypothesis Hc : is_Some (nodes g !! c).
Hypothesis Hnodes :
  forall j, nodes g' !! j = link_update n c oe j <$> nodes g !! j.
Hypothesis Hedges :
  match oe with
  | None => edges g' = edges g
  | Some e => edges g !! e = None /\ exists ed, edges g' = <[e := ed]> (edges g)
  end.

Lemma effect_node_inv j x' :
  nodes g' !! j = Some x' ->
  exists x, nodes g !! j = Some x /\ x' = link_update n c oe j x.
Proof.
  rewrite Hnodes. intros H. apply fmap_Some in H as (x & ? & ?). by exists x.
Qed.

Lemma effect_node j x :
  nodes g !! j = Some x -> nodes g' !! j = Some (link_update n c oe j x).
Proof. intros H. by rewrite Hnodes, H. Qed.

Lemma effect_edge_mono e :
  is_Some (edges g !! e) -> is_Some (edges g' !! e).
Proof.
  intros H. destruct oe as [e0|].
  - destruct Hedges as (_ & ed & ->). apply lookup_insert_is_Some'. by right.
  - by rewrite Hedges.
Qed.

Lemma effect_edge_inv e :
  is_Some (edges g' !! e) -> is_Some (edges g !! e) \/ oe = Some e.
Proof.
  intros H. destruct oe as [e0|].
  - destruct Hedges as (_ & ed & Heq). rewrite Heq in H.
    apply lookup_insert_is_Some' in H as [->|H]; [by right|by left].
  - left. by rewrite <- Hedges.
Qed.

Lemma effect_edge_new e :
  oe = Some e -> is_Some (edges g' !! e) /\ edges g !! e = None.
Proof.
  intros ->. destruct Hedges as (Hf & ed & ->). split; [|done].
  rewrite lookup_insert_eq. by eexists.
Qed.

(** What a node lists after the link: what it listed before, or the new
    conduit at the ends of the link. *)
Lemma effect_outs j x e :
  e ∈ outs (link_update n c oe j x) <->
  e ∈ outs x \/ (j = n /\ oe = Some e).
Proof.
  destruct (link_update_lists n c oe j x) as (-> & _).
  rewrite elem_of_app. destruct (decide (j = n)) as [->|Hj].
  - destruct oe as [e0|]; cbn.
    + rewrite list_elem_of_singleton. naive_solver.
    + rewrite elem_of_nil. naive_solver.
  - rewrite elem_of_nil. naive_solver.
Qed.

Lemma effect_ins j x e :
  e ∈ ins (link_update n c oe j x) <->
  e ∈ ins x \/ (j = c /\ oe = Some e).
Proof.
  destruct (link_update_lists n c oe j x) as (_ & -> & _).
  rewrite elem_of_app. destruct (decide (j = c)) as [->|Hj].
  - destruct oe as [e0|]; cbn.
    + rewrite list_elem_of_singleton. naive_solver.
    + rewrite elem_of_nil. naive_solver.
  - rewrite elem_of_nil. naive_solver.
Qed.

Lemma effect_children j x c0 :
  c0 ∈ children (link_update n c oe j x) <->
  c0 ∈ children x \/ (j = n /\ c0 = c).
Proof.
  destruct (link_update_lists n c oe j x) as (_ & _ & -> & _).
  rewrite elem_of_app. destruct (decide (j = n)) as [->|Hj].
  - rewrite list_elem_of_singleton. naive_solver.
  - rewrite elem_of_nil. naive_solver.
Qed.

Lemma effect_parents j x p :
  p ∈ parents (link_update n c oe j x) <->
  p ∈ parents x \/ (j = c /\ p = n /\ is_Some oe).
Proof.
  destruct (link_update_lists n c oe j x) as (_ & _ & _ & ->).
  rewrite elem_of_app. destruct (decide (j = c)) as [->|Hj].
  - destruct oe as [e0|]; cbn.
    + rewrite list_elem_of_singleton. naive_solver.
    + rewrite elem_of_nil. split; [naive_solver|].
      intros [?|(_ & _ & [? ?])]; [by left|done].
  - rewrite elem_of_nil. naive_solver.
Qed.

Lemma effect_conduits_known :
  conduits_known g -> conduits_known g'.
Proof.
  intros IH j x' e Hj He.
  destruct (effect_node_inv _ _ Hj) as (x & Hx & ->).
  rewrite effect_outs, effect_ins in He.
  destruct He as [[He|[_ He]]|[He|[_ He]]].
  - apply effect_edge_mono. apply (IH j x e Hx). by left.
  - by apply effect_edge_new.
  - apply effect_edge_mono. apply (IH j x e Hx). by right.
  - by apply effect_edge_new.
Qed.

Lemma effect_conduits_distinct :
  conduits_known g -> conduits_distinct g -> conduits_distinct g'.
Proof.
  intros Hk IH j x' Hj.
  destruct (effect_node_inv _ _ Hj) as (x & Hx & ->).
  destruct (IH j x Hx) as [Ho Hi].
  destruct (link_update_lists n c oe j x) as (-> & -> & _).
  assert (forall e, oe = Some e -> (e ∉ outs x) /\ (e ∉ ins x)) as Hnew.
  { intros e He. destruct (effect_edge_new e He) as [_ Hf].
    split; intros Hin.
    - destruct (Hk j x e Hx (or_introl Hin)) as [? ?]. congruence.
    - destruct (Hk j x e Hx (or_intror Hin)) as [? ?]. congruence. }
  split.
  - destruct (decide (j = n)) as [Hjn|Hjn]; [|by rewrite app_nil_r].
    destruct oe as [e|]; cbn; [|by rewrite app_nil_r].
    apply list.NoDup_app. split; [done|]. split; [|apply NoDup_singleton].
    intros y Hy Hy'. apply list_elem_of_singleton in Hy'. subst y.
    by destruct (Hnew e eq_refl).
  - destruct (decide (j = c)) as [Hjc|Hjc]; [|by rewrite app_nil_r].
    destruct oe as [e|]; cbn; [|by rewrite app_nil_r].
    apply list.NoDup_app. split; [done|]. split; [|apply NoDup_singleton].
    intros y Hy Hy'. apply list_elem_of_singleton in Hy'. subst y.
    by destruct (Hnew e eq_refl).
Qed.

Lemma effect_one_producer :
  conduits_known g -> one_producer g -> one_producer g'.
Proof.
  intros Hk IH j1 j2 x1' x2' e H1 H2 He1 He2.
  destruct (effect_node_inv _ _ H1) as (x1 & Hx1 & ->).
  destruct (effect_node_inv _ _ H2) as (x2 & Hx2 & ->).
  rewrite effect_outs in He1, He2.
  destruct He1 as [He1|[-> He1]], He2 as [He2|[-> He2]]; [| | |done].
  - by apply (IH j1 j2 x1 x2 e).
  - destruct (effect_edge_new e He2) as [_ Hf].
    destruct (Hk j1 x1 e Hx1 (or_introl He1)) as [? ?]. congruence.
  - destruct (effect_edge_new e He1) as [_ Hf].
    destruct (Hk j2 x2 e Hx2 (or_introl He2)) as [? ?]. congruence.
Qed.

Lemma effect_one_consumer :
  conduits_known g -> one_consumer g -> one_consumer g'.
Proof.
  intros Hk IH j1 j2 x1' x2' e H1 H2 He1 He2.
  destruct (effect_node_inv _ _ H1) as (x1 & Hx1 & ->).
  destruct (effect_node_inv _ _ H2) as (x2 & Hx2 & ->).
  rewrite effect_ins in He1, He2.
  destruct He1 as [He1|[-> He1]], He2 as [He2|[-> He2]]; [| | |done].
  - by apply (IH j1 j2 x1 x2 e).
  - destruct (effect_edge_new e He2) as [_ Hf].
    destruct (Hk j1 x1 e Hx1 (or_intror He1)) as [? ?]. congruence.
  - destruct (effect_edge_new e He1) as [_ Hf].
    destruct (Hk j2 x2 e Hx2 (or_intror He2)) as [? ?]. congruence.
Qed.

Lemma effect_conduits_connected :
  conduits_connected g -> conduits_connected g'.
Proof.
  intros IH e He. apply effect_edge_inv in He as [He|He].
  - destruct (IH e He) as [(j & x & Hx & Hin) (k & y & Hy & Hin')]. split.
    + exists j, (link_update n c oe j x). split; [by apply effect_node|].
      apply effect_outs. by left.
    + exists k, (link_update n c oe k y). split; [by apply effect_node|].
      apply effect_ins. by left.
  - destruct Hn as [nr Hnr], Hc as [cr Hcr]. split.
    + exists n, (link_update n c oe n nr). split; [by apply effect_node|].
      apply effect_outs. by right.
    + exists c, (link_update n c oe c cr). split; [by apply effect_node|].
      apply effect_ins. by right.
Qed.

Lemma effect_relatives_known :
  relatives_known g -> relatives_known g'.
Proof.
  intros IH j x' Hj.
  destruct (effect_node_inv _ _ Hj) as (x & Hx & ->).
  destruct (IH j x Hx) as [Hch Hpa]. split.
  - intros c0 Hc0. rewrite Hnodes. apply fmap_is_Some.
    apply effect_children in Hc0 as [Hc0|[_ ->]]; [by apply Hch|done].
  - intros p Hp. apply effect_parents in Hp as [Hp|(-> & -> & _)].
    + destruct (Hpa p Hp) as (px & Hpx & Hin).
      exists (link_update n c oe p px). split; [by apply effect_node|].
      apply effect_children. by left.
    + destruct Hn as [nr Hnr].
      exists (link_update n c oe n nr). split; [by apply effect_node|].
      apply effect_children. by right.
Qed.

Lemma effect_inputs_follow_parents :
  inputs_follow_parents g -> inputs_follow_parents g'.
Proof.
  intros IH j x' Hj.
  destruct (effect_node_inv _ _ Hj) as (x & Hx & ->).
  destruct (IH j x Hx) as [Hlen Hidx].
  assert (forall i e p, ins x !! i = Some e -> parents x !! i = Some p ->
            exists px, nodes g' !! p = Some px /\ e ∈ outs px) as Hold.
  { intros i e p Hi Hp. destruct (Hidx i e p Hi Hp) as (px & Hpx & Hin).
    exists (link_update n c oe p px). split; [by apply effect_node|].
    apply effect_outs. by left. }
  destruct (link_update_lists n c oe j x) as (_ & -> & _ & ->).
  destruct (decide (j = c)) as [->|Hjc]; [|by rewrite !app_nil_r].
  split; [by rewrite !length_app, length_fmap, Hlen|].
  intros i e p Hi Hp.
  destruct (decide (i < length (ins x))%nat) as [Hlt|Hge].
  - rewrite lookup_app_l in Hi by done.
    rewrite lookup_app_l in Hp by lia. by apply (Hold i).
  - rewrite lookup_app_r in Hi by lia.
    rewrite lookup_app_r in Hp by lia.
    apply option_list_lookup in Hi.
    apply const_option_list_lookup in Hp as [-> _].
    destruct Hn as [nr Hnr].
    exists (link_update n c oe n nr).
    split; [by apply effect_node|]. apply effect_outs. by right.
Qed.

Lemma effect_outputs_follow_children :
  is_Some oe -> outputs_follow_children g -> outputs_follow_children g'.
Proof.
  intros [e0 Hoe] IH j x' Hj.
  destruct (effect_node_inv _ _ Hj) as (x & Hx & ->).
  destruct (IH j x Hx) as [Hlen Hidx].
  assert (forall i e c0, outs x !! i = Some e -> children x !! i = Some c0 ->
            exists cx, nodes g' !! c0 = Some cx /\ e ∈ ins cx) as Hold.
  { intros i e c0 Hi Hc0. destruct (Hidx i e c0 Hi Hc0) as (cx & Hcx & Hin).
    exists (link_update n c oe c0 cx). split; [by apply effect_node|].
    apply effect_ins. by left. }
  destruct (link_update_lists n c oe j x) as (-> & _ & -> & _).
  destruct (decide (j = n)) as [->|Hjn]; [|by rewrite !app_nil_r].
  rewrite Hoe. cbn [option_list].
  split; [rewrite !length_app, Hlen; done|].
  intros i e c0 Hi Hc0.
  destruct (decide (i < length (outs x))%nat) as [Hlt|Hge].
  - rewrite lookup_app_l in Hi by done.
    rewrite lookup_app_l in Hc0 by lia. by apply (Hold i).
  - rewrite lookup_app_r in Hi by lia.
    rewrite lookup_app_r in Hc0 by lia.
    apply list_lookup_singleton_Some in Hi as [_ <-].
    apply list_lookup_singleton_Some in Hc0 as [_ <-].
    destruct Hc as [cr Hcr].
    exists (link_update n c oe c cr).
    split; [by apply effect_node|]. apply effect_ins. by right.
Qed.

End Effect.

Lemma built_of_fresh g : fresh_graph g -> built EdgeType_String newEdge g.
Proof. intros [Hun He]. by apply built_fresh. Qed.

Lemma built_link_seq ops : forall g g',
  built EdgeType_String newEdge g ->
  link_seq EdgeType_String newEdge ops g = Some g' ->
  built EdgeType_String newEdge g'.
Proof.
  induction ops as [|[n c] ops IH]; intros g g' Hb Hseq; cbn in Hseq.
  - by injection Hseq as <-.
  - destruct (linkChild EdgeType_String newEdge g n c) as [[g1 r]|] eqn:Hl;
      [|done].
    apply (IH g1); [|done]. by apply (built_link _ _ g n c g1 r).
Qed.

Lemma unlinked_lists g :
  (forall i x, nodes g !! i = Some x -> unlinked x) ->
  forall i x, nodes g !! i = Some x ->
    parents x = [] /\ children x = [] /\ ins x = [] /\ outs x = [].
Proof. intros H i x Hx. apply (H i x Hx). Qed.

Lemma built_conduits_known g :
  built EdgeType_String newEdge g -> conduits_known g.
Proof.
  revert g. apply built_effect_ind.
  - intros g Hun _ j x e Hx.
    destruct (unlinked_lists g Hun j x Hx) as (_ & _ & -> & ->).
    intros [H|H]; by apply elem_of_nil in H.
  - intros g n c oe g' _ IH Hn Hc Hnodes Hedges _.
    by apply (effect_conduits_known g g' n c oe).
Qed.

Lemma built_conduits_distinct g :
  built EdgeType_String newEdge g -> conduits_distinct g.
Proof.
  revert g. apply built_effect_ind.
  - intros g Hun _ j x Hx.
    destruct (unlinked_lists g Hun j x Hx) as (_ & _ & -> & ->).
    split; constructor.
  - intros g n c oe g' Hb IH Hn Hc Hnodes Hedges _.
    apply (effect_conduits_distinct g g' n c oe); try done.
    by apply built_conduits_known.
Qed.

Lemma built_one_producer g :
  built EdgeType_String newEdge g -> one_producer g.
Proof.
  revert g. apply built_effect_ind.
  - intros g Hun _ j1 j2 x1 x2 e Hx1 _ He.
    destruct (unlinked_lists g Hun j1 x1 Hx1) as (_ & _ & _ & Ho).
    rewrite Ho in He. by apply elem_of_nil in He.
  - intros g n c oe g' Hb IH Hn Hc Hnodes Hedges _.
    apply (effect_one_producer g g' n c oe); try done.
    by apply built_conduits_known.
Qed.

Lemma built_one_consumer g :
  built EdgeType_String newEdge g -> one_consumer g.
Proof.
  revert g. apply built_effect_ind.
  - intros g Hun _ j1 j2 x1 x2 e Hx1 _ He.
    destruct (unlinked_lists g Hun j1 x1 Hx1) as (_ & _ & Hi & _).
    rewrite Hi in He. by apply elem_of_nil in He.
  - intros g n c oe g' Hb IH Hn Hc Hnodes Hedges _.
    apply (effect_one_consumer g g' n c oe); try done.
    by apply built_conduits_known.
Qed.

Lemma built_conduits_connected g :
  built EdgeType_String newEdge g -> conduits_connected g.
Proof.
  revert g. apply built_effect_ind.
  - intros g _ He e [ed Hed]. by rewrite He, lookup_empty in Hed.
  - intros g n c oe g' _ IH Hn Hc Hnodes Hedges _.
    by apply (effect_conduits_connected g g' n c oe).
Qed.

Lemma built_inputs_follow_parents g :
  built EdgeType_String newEdge g -> inputs_follow_parents g.
Proof.
  revert g. apply built_effect_ind.
  - intros g Hun _ j x Hx.
    destruct (unlinked_lists g Hun j x Hx) as (-> & _ & -> & _).
    split; [done|]. intros i e p Hi. by rewrite lookup_nil in Hi.
  - intros g n c oe g' _ IH Hn Hc Hnodes Hedges _.
    by apply (effect_inputs_follow_parents g g' n c oe).
Qed.

Lemma built_relatives_known g :
  built EdgeType_String newEdge g -> relatives_known g.
Proof.
  revert g. apply built_effect_ind.
  - intros g Hun _ j x Hx.
    destruct (unlinked_lists g Hun j x Hx) as (-> & -> & _ & _).
    split; intros y Hy; by apply elem_of_nil in Hy.
  - intros g n c oe g' _ IH Hn Hc Hnodes Hedges _.
    by apply (effect_relatives_known g g' n c oe).
Qed.

Lemma built_outputs_follow_children g :
  (forall t p q ty, is_Some (newEdge t p q ty)) ->
  built EdgeType_String newEdge g -> outputs_follow_children g.
Proof.
  intros Hknown. revert g. apply built_effect_ind.
  - intros g Hun _ j x Hx.
    destruct (unlinked_lists g Hun j x Hx) as (_ & -> & _ & ->).
    split; [done|]. intros i e p Hi. by rewrite lookup_nil in Hi.
  - intros g n c oe g' _ IH Hn Hc Hnodes Hedges Hnone.
    apply (effect_outputs_follow_children g g' n c oe); try done.
    destruct oe as [e|]; [by eexists|].
    destruct (Hnone eq_refl) as (t & p & q & ty & Hnew).
    destruct (Hknown t p q ty) as [? ?]. congruence.
Qed.

(** X1. A [linkChild] only appends, and only at its two ends: every node
    of the graph is still there with the lists it had as prefixes of the
    lists it has, only [n] can have new children or outputs and only [c]
    new parents or inputs, no other field of any node is written, and
    every conduit of the store is still there as it was. *)
Theorem linkChild_only_appends_at_its_ends g n c g' r :
  linkChild EdgeType_String newEdge g n c = Some (g', r) ->
  (forall e ed, edges g !! e = Some ed -> edges g' !! e = Some ed) /\
  (forall j, is_Some (nodes g' !! j) <-> is_Some (nodes g !! j)) /\
  (forall j x x', nodes g !! j = Some x -> nodes g' !! j = Some x' ->
     children x `prefix_of` children x' /\ outs x `prefix_of` outs x' /\
     parents x `prefix_of` parents x' /\ ins x `prefix_of` ins x' /\
     (j <> n -> children x' = children x /\ outs x' = outs x) /\
     (j <> c -> parents x' = parents x /\ ins x' = ins x) /\
     (j <> n -> j <> c -> x' = x) /\
     name x' = name x /\ provides x' = provides x /\ wants x' = wants x /\
     errCh x' = errCh x /\ err x' = err x /\ finished x' = finished x /\
     statsKey x' = statsKey x /\ statMap x' = statMap x).
Proof.
  intros Hlink.
  destruct (linkChild_effect _ _ _ _ _ Hlink)
    as (nr & cr & Hn & Hc & [(_ & -> & _)|Heff]).
  { split; [done|]. split; [done|]. intros j x x' Hx Hx'.
    rewrite Hx in Hx'. injection Hx' as <-. by repeat split. }
  assert (exists oe,
            (forall j, nodes g' !! j = link_update n c oe j <$> nodes g !! j) /\
            (forall e ed, edges g !! e = Some ed -> edges g' !! e = Some ed))
    as (oe & Hnodes & Hedges).
  { destruct Heff as [(_ & _ & _ & He & Hnodes)|(_ & ed & _ & _ & He & Hnodes)].
    - exists None. split; [done|]. by rewrite He.
    - exists (Some (alloc_edge g)). split; [done|]. intros e ed' Hed.
      rewrite He. rewrite lookup_insert_ne; [done|].
      intros <-. by rewrite alloc_edge_fresh in Hed. }
  split; [done|]. split.
  { intros j. by rewrite Hnodes, fmap_is_Some. }
  intros j x x' Hx Hx'. rewrite Hnodes, Hx in Hx'. injection Hx' as <-.
  destruct (link_update_lists n c oe j x) as (Ho & Hi & Hch & Hp).
  destruct (link_update_rest n c oe j x)
    as (_ & _ & ? & _ & ? & ? & _ & _ & ? & ? & ? & ? & ?).
  rewrite Ho, Hi, Hch, Hp.
  do 4 (split; [by apply prefix_app_r|]).
  split; [intros Hj; by rewrite !decide_False, !app_nil_r by done|].
  split; [intros Hj; by rewrite !decide_False, !app_nil_r by done|].
  split; [intros; by apply link_update_other|done].
Qed.

(** X2. After any sequence of [linkChild] calls on a fresh graph, failed
    calls included, every conduit of the store has exactly one producer
    and exactly one consumer: it is among the outputs of one node and of
    no other, among the inputs of one node and of no other, once in each
    list; and every conduit a node lists is in the store. *)
Theorem wiring_gives_each_conduit_its_two_ends g0 ops g :
  fresh_graph g0 ->
  link_seq EdgeType_String newEdge ops g0 = Some g ->
  (forall e, is_Some (edges g !! e) ->
     exists p px c cx,
       nodes g !! p = Some px /\ nodes g !! c = Some cx /\
       e ∈ outs px /\ e ∈ ins cx /\
       NoDup (outs px) /\ NoDup (ins cx) /\
       (forall j x, nodes g !! j = Some x -> e ∈ outs x -> j = p) /\
       (forall j x, nodes g !! j = Some x -> e ∈ ins x -> j = c)) /\
  (forall j x e, nodes g !! j = Some x -> e ∈ outs x \/ e ∈ ins x ->
     is_Some (edges g !! e)).
Proof.
  intros Hfresh Hseq.
  pose proof (built_link_seq _ _ _ (built_of_fresh _ Hfresh) Hseq) as Hb.
  split; [|by apply built_conduits_known].
  intros e He.
  destruct (built_conduits_connected _ Hb e He)
    as [(p & px & Hpx & Hout) (c & cx & Hcx & Hin)].
  exists p, px, c, cx. do 4 (split; [done|]).
  split; [by destruct (built_conduits_distinct _ Hb p px Hpx)|].
  split; [by destruct (built_conduits_distinct _ Hb c cx Hcx)|].
  split.
  - intros j x Hx Hj. by apply (built_one_producer _ Hb j p x px e).
  - intros j x Hx Hj. by apply (built_one_consumer _ Hb j c x cx e).
Qed.

(** X3. After any sequence of [linkChild] calls on a fresh graph, failed
    calls included, the input conduits of a node and its parents go by
    index: the node has as many of the one as of the other, and its input
    conduit at an index is an output conduit of its parent at that
    index. *)
Theorem wiring_keeps_inputs_with_parents g0 ops g j x :
  fresh_graph g0 ->
  link_seq EdgeType_String newEdge ops g0 = Some g ->
  nodes g !! j = Some x ->
  length (ins x) = length (parents x) /\
  forall i e p, ins x !! i = Some e -> parents x !! i = Some p ->
    exists px, nodes g !! p = Some px /\ e ∈ outs px.
Proof.
  intros Hfresh Hseq Hx.
  pose proof (built_link_seq _ _ _ (built_of_fresh _ Hfresh) Hseq) as Hb.
  by apply (built_inputs_follow_parents _ Hb j x).
Qed.

(** X4. When the conduit constructor returns a conduit for every stream
    type, the same holds on the other side after any sequence of
    [linkChild] calls on a fresh graph: a node has as many output conduits
    as children, and its output conduit at an index is an input conduit of
    its child at that index, which is the pairing [edot] reads. *)
Theorem wiring_keeps_outputs_with_children g0 ops g j x :
  (forall t p q ty, is_Some (newEdge t p q ty)) ->
  fresh_graph g0 ->
  link_seq EdgeType_String newEdge ops g0 = Some g ->
  nodes g !! j = Some x ->
  length (outs x) = length (children x) /\
  forall i e c, outs x !! i = Some e -> children x !! i = Some c ->
    exists cx, nodes g !! c = Some cx /\ e ∈ ins cx.
Proof.
  intros Hknown Hfresh Hseq Hx.
  pose proof (built_link_seq _ _ _ (built_of_fresh _ Hfresh) Hseq) as Hb.
  by apply (built_outputs_follow_children _ Hknown Hb j x).
Qed.

(** X5. After any sequence of [linkChild] calls on a fresh graph, failed
    calls included, the children and the parents a node lists are nodes of
    the graph, and every parent it lists has the node among its
    children. *)
Theorem wiring_keeps_relatives_in_the_graph g0 ops g j x :
  fresh_graph g0 ->
  link_seq EdgeType_String newEdge ops g0 = Some g ->
  nodes g !! j = Some x ->
  (forall c, c ∈ children x -> is_Some (nodes g !! c)) /\
  (forall p, p ∈ parents x ->
     exists px, nodes g !! p = Some px /\ j ∈ children px).
Proof.
  intros Hfresh Hseq Hx.
  pose proof (built_link_seq _ _ _ (built_of_fresh _ Hfresh) Hseq) as Hb.
  by apply (built_relatives_known _ Hb j x).
Qed.

(** X6. Linking the same pair twice is not deduplicated: the two calls
    succeed, make two different conduits, and leave the child twice among
    the children of [n], [n] twice among the parents of the child, and the
    two conduits, in the order of the calls, last among the outputs of [n]
    and the inputs of the child. *)
Theorem linkChild_twice_makes_two_conduits g n c nr cr ed :
  nodes g !! n = Some nr -> nodes g !! c = Some cr ->
  provides nr = wants cr ->
  newEdge (task nr) (name nr) (name cr) (provides nr) = Some ed ->
  exists g1 g2 e1 e2 nr2 cr2,
    linkChild EdgeType_String newEdge g n c = Some (g1, None) /\
    linkChild EdgeType_String newEdge g1 n c = Some (g2, None) /\
    e1 <> e2 /\
    edges g2 !! e1 = Some ed /\ edges g2 !! e2 = Some ed /\
    nodes g2 !! n = Some nr2 /\ nodes g2 !! c = Some cr2 /\
    outs nr2 = outs nr ++ [e1; e2] /\
    children nr2 = children nr ++ [c; c] /\
    ins cr2 = ins cr ++ [e1; e2] /\
    parents cr2 = parents cr ++ [n; n].
Proof.
  intros Hn Hc Heq Hnew.
  destruct (linkChild_linked EdgeType_String _ _ _ _ _ _ _ Hn Hc Heq Hnew)
    as (g1 & nr1 & cr1 & Hl1 & He1 & Hn1 & Hc1 & Ho1 & Hch1 & Hi1 & Hp1 & _).
  destruct (linkChild_effect _ _ _ _ _ Hl1)
    as (nr0 & cr0 & Hn0 & Hc0 & Heff).
  rewrite Hn in Hn0. injection Hn0 as <-.
  rewrite Hc in Hc0. injection Hc0 as <-.
  destruct Heff as [(_ & _ & [=])|[(_ & _ & [=] & _)|(_ & ed' & _ & _ & _ & Hnodes)]].
  assert (task nr1 = task nr /\ name nr1 = name nr /\
          provides nr1 = provides nr) as (Ht & Hnm & Hpr).
  { rewrite Hnodes, Hn in Hn1. injection Hn1 as <-.
    by destruct (link_update_rest n c (Some (alloc_edge g)) n nr)
      as (? & _ & ? & _ & ? & _). }
  assert (name cr1 = name cr /\ wants cr1 = wants cr) as (Hnm' & Hw).
  { rewrite Hnodes, Hc in Hc1. injection Hc1 as <-.
    by destruct (link_update_rest n c (Some (alloc_edge g)) c cr)
      as (_ & _ & ? & _ & _ & ? & _). }
  assert (provides nr1 = wants cr1) as Heq1 by congruence.
  assert (newEdge (task nr1) (name nr1) (name cr1) (provides nr1) = Some ed)
    as Hnew1 by (by rewrite Ht, Hnm, Hnm', Hpr).
  destruct (linkChild_linked EdgeType_String _ _ _ _ _ _ _ Hn1 Hc1 Heq1 Hnew1)
    as (g2 & nr2 & cr2 & Hl2 & He2 & Hn2 & Hc2 & Ho2 & Hch2 & Hi2 & Hp2 & _).
  exists g1, g2, (alloc_edge g), (alloc_edge g1), nr2, cr2.
  split; [done|]. split; [done|].
  assert (alloc_edge g <> alloc_edge g1) as Hne.
  { intros Heq'. pose proof (alloc_edge_fresh g1) as Hf.
    rewrite <- Heq', He1, lookup_insert_eq in Hf. done. }
  split; [done|]. split.
  { rewrite He2, lookup_insert_ne by done. by rewrite He1, lookup_insert_eq. }
  split; [by rewrite He2, lookup_insert_eq|].
  split; [done|]. split; [done|].
  rewrite Ho2, Ho1, Hch2, Hch1, Hi2, Hi1, Hp2, Hp1, <- !app_assoc. done.
Qed.

(** X7. [linkChild] does not refuse to link a node to itself: when the
    node's output type is its input type the call succeeds, the node is
    then its own child and its own parent, and the new conduit is both
    among its outputs and among its inputs. *)
Theorem linkChild_accepts_a_self_link g n nr ed :
  nodes g !! n = Some nr ->
  provides nr = wants nr ->
  newEdge (task nr) (name nr) (name nr) (provides nr) = Some ed ->
  exists g' nr' e,
    linkChild EdgeType_String newEdge g n n = Some (g', None) /\
    nodes g' !! n = Some nr' /\
    edges g !! e = None /\ edges g' !! e = Some ed /\
    children nr' = children nr ++ [n] /\
    parents nr' = parents nr ++ [n] /\
    outs nr' = outs nr ++ [e] /\
    ins nr' = ins nr ++ [e].
Proof.
  intros Hn Heq Hnew.
  destruct (linkChild_linked EdgeType_String _ _ _ _ _ _ _ Hn Hn Heq Hnew)
    as (g' & nr' & cr' & Hl & He & Hn' & Hc' & Ho & Hch & Hi & Hp & _).
  rewrite Hn' in Hc'. injection Hc' as <-.
  exists g', nr', (alloc_edge g). split; [done|]. split; [done|].
  split; [apply alloc_edge_fresh|].
  split; [by rewrite He, lookup_insert_eq|]. done.
Qed.

End WiringFacts.

Lemma link_graph_fresh : fresh_graph link_graph.
Proof.
  split; [|reflexivity].
  apply (bool_decide_unpack
           (map_Forall (fun _ x => unlinked x) (nodes link_graph))).
  by vm_compute.
Defined.

Lemma sample_wiring_runs :
  link_seq Shape_String sample_newEdge sample_wiring link_graph
  = Some wired_graph.
Proof. by vm_compute. Defined.

Lemma sample_wiring_runs_fully :
  link_seq Shape_String any_newEdge sample_wiring link_graph
  = Some fully_wired_graph.
Proof. by vm_compute. Defined.

Lemma linkChild_only_appends_at_its_ends_witness :
  (forall e ed, edges link_graph !! e = Some ed ->
     edges linked_AB_graph !! e = Some ed) /\
  (forall j, is_Some (nodes linked_AB_graph !! j)
             <-> is_Some (nodes link_graph !! j)).
Proof.
  destruct (linkChild_only_appends_at_its_ends Shape_String sample_newEdge
              link_graph 0%nat 1%nat linked_AB_graph None)
    as (H1 & H2 & _); [by vm_compute|].
  split; [exact H1|exact H2].
Defined.

Lemma wiring_gives_each_conduit_its_two_ends_witness :
  (forall e, is_Some (edges wired_graph !! e) ->
     exists p px c cx,
       nodes wired_graph !! p = Some px /\ nodes wired_graph !! c = Some cx /\
       e ∈ outs px /\ e ∈ ins cx /\
       NoDup (outs px) /\ NoDup (ins cx) /\
       (forall j x, nodes wired_graph !! j = Some x -> e ∈ outs x -> j = p) /\
       (forall j x, nodes wired_graph !! j = Some x -> e ∈ ins x -> j = c)) /\
  (forall j x e, nodes wired_graph !! j = Some x ->
     e ∈ outs x \/ e ∈ ins x -> is_Some (edges wired_graph !! e)).
Proof.
  apply (wiring_gives_each_conduit_its_two_ends Shape_String sample_newEdge
           link_graph sample_wiring wired_graph).
  - exact link_graph_fresh.
  - by vm_compute.
Defined.

Lemma wiring_keeps_inputs_with_parents_witness :
  length (ins wired_B) = length (parents wired_B) /\
  forall i e p, ins wired_B !! i = Some e -> parents wired_B !! i = Some p ->
    exists px, nodes wired_graph !! p = Some px /\ e ∈ outs px.
Proof.
  apply (wiring_keeps_inputs_with_parents Shape_String sample_newEdge
           link_graph sample_wiring wired_graph 1%nat wired_B).
  - exact link_graph_fresh.
  - by vm_compute.
  - by vm_compute.
Defined.

Lemma wiring_keeps_outputs_with_children_witness :
  length (outs fully_wired_A) = length (children fully_wired_A) /\
  forall i e c,
    outs fully_wired_A !! i = Some e -> children fully_wired_A !! i = Some c ->
    exists cx, nodes fully_wired_graph !! c = Some cx /\ e ∈ ins cx.
Proof.
  apply (wiring_keeps_outputs_with_children Shape_String any_newEdge
           link_graph sample_wiring fully_wired_graph 0%nat fully_wired_A).
  - intros t p q ty. by eexists.
  - exact link_graph_fresh.
  - by vm_compute.
  - by vm_compute.
Defined.

Lemma wiring_keeps_relatives_in_the_graph_witness :
  (forall c, c ∈ children wired_A -> is_Some (nodes wired_graph !! c)) /\
  (forall p, p ∈ parents wired_B ->
     exists px, nodes wired_graph !! p = Some px /\ 1%nat ∈ children px).
Proof.
  split.
  - apply (wiring_keeps_relatives_in_the_graph Shape_String sample_newEdge
             link_graph sample_wiring wired_graph 0%nat wired_A);
      [exact link_graph_fresh|by vm_compute|by vm_compute].
  - apply (wiring_keeps_relatives_in_the_graph Shape_String sample_newEdge
             link_graph sample_wiring wired_graph 1%nat wired_B);
      [exact link_graph_fresh|by vm_compute|by vm_compute].
Defined.

Lemma linkChild_twice_makes_two_conduits_witness :
  exists g1 g2 e1 e2 nr2 cr2,
    linkChild Shape_String sample_newEdge link_graph 0%nat 1%nat
    = Some (g1, None) /\
    linkChild Shape_String sample_newEdge g1 0%nat 1%nat = Some (g2, None) /\
    e1 <> e2 /\
    edges g2 !! e1 = Some empty_edge /\ edges g2 !! e2 = Some empty_edge /\
    nodes g2 !! 0%nat = Some nr2 /\ nodes g2 !! 1%nat = Some cr2 /\
    outs nr2 = outs node_A ++ [e1; e2] /\
    children nr2 = children node_A ++ [1%nat; 1%nat] /\
    ins cr2 = ins node_B ++ [e1; e2] /\
    parents cr2 = parents node_B ++ [0%nat; 0%nat].
Proof.
  apply (linkChild_twice_makes_two_conduits Shape_String sample_newEdge
           link_graph 0%nat 1%nat node_A node_B empty_edge); reflexivity.
Defined.

Lemma linkChild_accepts_a_self_link_witness :
  exists g' nr' e,
    linkChild Shape_String sample_newEdge link_graph 0%nat 0%nat
    = Some (g', None) /\
    nodes g' !! 0%nat = Some nr' /\
    edges link_graph !! e = None /\ edges g' !! e = Some empty_edge /\
    children nr' = children node_A ++ [0%nat] /\
    parents nr' = parents node_A ++ [0%nat] /\
    outs nr' = outs node_A ++ [e] /\
    ins nr' = ins node_A ++ [e].
Proof.
  apply (linkChild_accepts_a_self_link Shape_String sample_newEdge
           link_graph 0%nat node_A empty_edge); reflexivity.
Defined.

(** ** Lifecycle *)

Section RunningFacts.

Context {EdgeType Ext : Type}.
Context (new_key : gmap string (string * gmap string string) -> string).
Context (Duration_String : Z -> string).
Context (stack_dump : string).

Implicit Types (n : @node EdgeType Ext) (s : @ErrState EdgeType Ext).







(** X9. From [start] to [Err], on a node on which [Err] has not been
    called, when the run routine returns: the goroutine delivers what the
    run routine returned and exits, and any number of calls of [Err] then
    return that value and leave the channel empty. *)
Theorem Err_reports_what_the_run_routine_returned n rt snapshot e k :
  finished n = false ->
  runF n snapshot = Returns e ->
  exists n1 tr n2,
    start_goroutine stack_dump (start new_key Duration_String n rt).1 snapshot
    = (n1, tr, Exited) /\
    Err_times (S k) n1 = Some (n2, replicate (S k) e) /\
    errCh n2 = [] /\ err n2 = e /\ finished n2 = true.
Proof.
  intros Hfin Hret.
  set (n0 := (start new_key Duration_String n rt).1).
  assert (runF n0 snapshot = Returns e) as Hret0 by done.
  rewrite (start_goroutine_trace stack_dump n0 snapshot) by done.
  rewrite Hret0. cbn [delivered exit_of].
  assert (terminated (set_errCh n0 [e]) e) as Hterm by (by split).
  eexists _, _, _. split; [done|].
  cbn [Err_times]. rewrite (Err_first _ _ Hterm).
  rewrite Err_times_cached by done. done.
Qed.

(** X10. [start] does not reset what [Err] has cached. On a node on which
    [Err] has already returned, a second [start] and the end of its
    goroutine change nothing for the callers of [Err]: they get the old
    result at once, even while the new goroutine is still running, and the
    result of the new run stays in the channel, never received. *)
Theorem start_keeps_the_cached_result n rt snapshot k :
  finished n = true ->
  let n0 := (start new_key Duration_String n rt).1 in
  let n1 := (start_goroutine stack_dump n0 snapshot).1.1 in
  Err_times k n0 = Some (n0, replicate k (err n)) /\
  Err_times k n1 = Some (n1, replicate k (err n)) /\
  errCh n1 = [delivered (runF n snapshot)].
Proof.
  intros Hfin n0 n1.
  assert (n1 = set_errCh n0 [delivered (runF n snapshot)]) as Hn1.
  { unfold n1. by rewrite (start_goroutine_trace stack_dump n0 snapshot). }
  split; [by rewrite Err_times_cached|].
  split; [|by rewrite Hn1].
  rewrite Hn1. by rewrite Err_times_cached.
Qed.

(** X11. [start] and [stop] on the registry of statistics, when
    [NewStatistics] hands out keys that are not in use: a node's [stop]
    after its [start] leaves the registry as it was before the [start];
    two nodes started one after the other get different keys, stopping
    the first leaves the second registered with its tags, and after both
    have stopped, in either order, the registry is as before. *)
Theorem stop_unregisters_its_own_node_only (a b : @node EdgeType Ext) rt :
  let a0 := (start new_key Duration_String a rt).1 in
  let rt1 := (start new_key Duration_String a rt).2 in
  let b0 := (start new_key Duration_String b rt1).1 in
  let rt2 := (start new_key Duration_String b rt1).2 in
  registry rt !! new_key (registry rt) = None ->
  registry rt1 !! new_key (registry rt1) = None ->
  registry (stop a0 rt1).2 = registry rt /\
  statsKey a0 <> statsKey b0 /\
  registry (stop a0 rt2).2 !! statsKey b0 = registry rt2 !! statsKey b0 /\
  is_Some (registry (stop a0 rt2).2 !! statsKey b0) /\
  registry (stop b0 (stop a0 rt2).2).2 = registry rt /\
  registry (stop a0 (stop b0 rt2).2).2 = registry rt.
Proof.
  intros a0 rt1 b0 rt2 Hfresh Hfresh1.
  assert (forall (x : @node EdgeType Ext) r,
            registry (stop x r).2 = delete (statsKey x) (registry r))
    as Hstop by (intros x r; unfold stop; by destruct (stopF x)).
  rewrite !Hstop.
  set (ka := new_key (registry rt)) in *.
  set (kb := new_key (registry rt1)) in *.
  change (statsKey a0) with ka. change (statsKey b0) with kb.
  assert (registry rt1 = <[ka := ("nodes"%string,
            <["task"%string := task a]> (<["node"%string := name a]>
              (<["type"%string := taskType a]>
                (<["kind"%string := desc a]> ∅))))]> (registry rt)) as Hr1
    by done.
  assert (registry rt2 = <[kb := ("nodes"%string,
            <["task"%string := task b]> (<["node"%string := name b]>
              (<["type"%string := taskType b]>
                (<["kind"%string := desc b]> ∅))))]> (registry rt1)) as Hr2
    by done.
  assert (ka <> kb) as Hne.
  { intros Heq. rewrite Hr1, <- Heq, lookup_insert_eq in Hfresh1. done. }
  split; [by rewrite Hr1, delete_insert_id|].
  split; [done|].
  split; [by rewrite lookup_delete_ne|].
  split; [rewrite lookup_delete_ne by done; rewrite Hr2, lookup_insert_eq;
          by eexists|].
  split.
  - rewrite Hr2, delete_insert_ne by done.
    rewrite delete_insert_id by (by rewrite lookup_delete_ne).
    by rewrite Hr1, delete_insert_id.
  - rewrite Hr2, delete_insert_id by done.
    by rewrite Hr1, delete_insert_id.
Qed.

End RunningFacts.


Lemma Err_reports_what_the_run_routine_returned_witness :
  exists n1 tr n2,
    start_goroutine sample_stack
      (start sample_key sample_duration failing_node sample_rt).1 []
    = (n1, tr, Exited) /\
    Err_times 3 n1 = Some (n2, replicate 3 (Some "disk full"%string)) /\
    errCh n2 = [] /\ err n2 = Some "disk full"%string /\ finished n2 = true.
Proof.
  apply (Err_reports_what_the_run_routine_returned sample_key sample_duration
           sample_stack failing_node sample_rt [] (Some "disk full"%string)
           2%nat); reflexivity.
Defined.

Lemma start_keeps_the_cached_result_witness :
  Err_times 2 restarted_node
  = Some (restarted_node, replicate 2 (Some "disk full"%string)) /\
  Err_times 2 rerun_node
  = Some (rerun_node, replicate 2 (Some "disk full"%string)) /\
  errCh rerun_node = [None].
Proof.
  apply (start_keeps_the_cached_result sample_key sample_duration
           sample_stack reported_node sample_rt [] 2%nat).
  reflexivity.
Defined.

Lemma stop_unregisters_its_own_node_only_witness :
  registry (stop started_A.1 started_A.2).2 = registry sample_rt /\
  statsKey started_A.1 <> statsKey started_B.1 /\
  registry (stop started_A.1 started_B.2).2 !! statsKey started_B.1
  = registry started_B.2 !! statsKey started_B.1 /\
  is_Some (registry (stop started_A.1 started_B.2).2 !! statsKey started_B.1) /\
  registry (stop started_B.1 (stop started_A.1 started_B.2).2).2
  = registry sample_rt /\
  registry (stop started_A.1 (stop started_B.1 started_B.2).2).2
  = registry sample_rt.
Proof.
  apply (stop_unregisters_its_own_node_only numbered_key sample_duration
           node_A node_B sample_rt); by vm_compute.
Defined.

(** ** Wiring and lifecycle together *)

Section CleanupFacts.

Context {EdgeType : Type} `{!EqDecision EdgeType}.
Context (EdgeType_String : EdgeType -> string).
Context {Ext : Type}.
Context (newEdge : string -> string -> string -> EdgeType -> option Edge).
Context (new_key : gmap string (string * gmap string string) -> string).
Context (Duration_String : Z -> string).
Context (stack_dump : string).

(** X12. In a graph wired by [linkChild] calls, what the goroutine of
    [start] closes and aborts are the conduits to the node's neighbours:
    every conduit it closes is an input of a child of the node, which
    lists the node among its parents; every conduit it aborts is an output
    of a parent of the node; when the run routine returned an error, every
    parent of the node has an output conduit aborted; and when the conduit
    constructor knows every stream type, every child has an input conduit
    closed. *)
Theorem start_cleanup_reaches_the_neighbours
    (g0 g : @Graph EdgeType Ext) ops j (x : @node EdgeType Ext)
    (rt : @Runtime Ext) snapshot :
  fresh_graph g0 ->
  link_seq EdgeType_String newEdge ops g0 = Some g ->
  nodes g !! j = Some x ->
  let n0 := (start new_key Duration_String x rt).1 in
  let tr := (start_goroutine stack_dump n0 snapshot).1.2 in
  (forall e, e ∈ closes_of tr ->
     exists c cx, c ∈ children x /\ nodes g !! c = Some cx /\
                  e ∈ ins cx /\ j ∈ parents cx) /\
  (forall e, e ∈ aborts_of tr ->
     exists p px, p ∈ parents x /\ nodes g !! p = Some px /\ e ∈ outs px) /\
  (forall err p, runF x snapshot = Returns (Some err) -> p ∈ parents x ->
     exists e px, e ∈ aborts_of tr /\ nodes g !! p = Some px /\ e ∈ outs px) /\
  ((forall t p q ty, is_Some (newEdge t p q ty)) ->
   forall c, c ∈ children x ->
     exists e cx, e ∈ closes_of tr /\ nodes g !! c = Some cx /\ e ∈ ins cx).
Proof.
  intros Hfresh Hseq Hx n0 tr.
  pose proof (built_link_seq EdgeType_String newEdge _ _ _
                (built_of_fresh EdgeType_String newEdge _ Hfresh) Hseq) as Hb.
  assert (tr = map EvClose (outs x) ++ unwinding x (runF x snapshot)
                 ++ [EvSend (delivered (runF x snapshot))]) as Htr.
  { unfold tr. by rewrite (start_goroutine_trace stack_dump n0 snapshot). }
  destruct (cleanup_trace_by_kind x (runF x snapshot))
    as (Hcl & Hab & _ & _).
  rewrite <- Htr in Hcl, Hab. rewrite Hcl, Hab.
  destruct (built_inputs_follow_parents _ _ _ Hb j x Hx) as [Hlen Hpar].
  split; [|split; [|split]].
  - intros e He.
    destruct (built_conduits_known _ _ _ Hb j x e Hx (or_introl He)) as [ed Hed].
    destruct (built_conduits_connected _ _ _ Hb e (ex_intro _ ed Hed))
      as [_ (c & cx & Hcx & Hin)].
    apply list_elem_of_lookup in Hin as Hi. destruct Hi as [i Hi].
    destruct (built_inputs_follow_parents _ _ _ Hb c cx Hcx) as [Hlenc Hparc].
    destruct (lookup_lt_is_Some_2 (parents cx) i) as [p Hp].
    { rewrite <- Hlenc. by eapply lookup_lt_Some. }
    destruct (Hparc i e p Hi Hp) as (px & Hpx & Hout).
    assert (p = j) as ->
      by apply (built_one_producer _ _ _ Hb p j px x e Hpx Hx Hout He).
    assert (j ∈ parents cx) as Hjp by (by eapply list_elem_of_lookup_2).
    destruct (built_relatives_known _ _ _ Hb c cx Hcx) as [_ Hrel].
    destruct (Hrel j Hjp) as (x' & Hx' & Hch).
    rewrite Hx in Hx'. injection Hx' as <-.
    by exists c, cx.
  - intros e He. destruct (runF x snapshot) as [[err|]|r];
      try by apply elem_of_nil in He.
    apply list_elem_of_lookup in He as [i Hi].
    destruct (lookup_lt_is_Some_2 (parents x) i) as [p Hp].
    { rewrite <- Hlen. by eapply lookup_lt_Some. }
    destruct (Hpar i e p Hi Hp) as (px & Hpx & Hout).
    exists p, px. split; [by eapply list_elem_of_lookup_2|done].
  - intros err p Hret Hp. rewrite Hret.
    apply list_elem_of_lookup in Hp as [i Hi].
    destruct (lookup_lt_is_Some_2 (ins x) i) as [e He].
    { rewrite Hlen. by eapply lookup_lt_Some. }
    destruct (Hpar i e p He Hi) as (px & Hpx & Hout).
    exists e, px. split; [by eapply list_elem_of_lookup_2|done].
  - intros Hknown c Hc.
    destruct (built_outputs_follow_children EdgeType_String newEdge g
                Hknown Hb j x Hx)
      as [Hleno Hchild].
    apply list_elem_of_lookup in Hc as [i Hi].
    destruct (lookup_lt_is_Some_2 (outs x) i) as [e He].
    { rewrite Hleno. by eapply lookup_lt_Some. }
    destruct (Hchild i e c He Hi) as (cx & Hcx & Hin).
    exists e, cx. split; [by eapply list_elem_of_lookup_2|done].
Qed.

End CleanupFacts.

Lemma start_cleanup_reaches_the_neighbours_witness :
  (forall e, e ∈ closes_of fully_wired_A_trace ->
     exists c cx, c ∈ children fully_wired_A /\
                  nodes fully_wired_graph !! c = Some cx /\
                  e ∈ ins cx /\ 0%nat ∈ parents cx) /\
  (forall c, c ∈ children fully_wired_A ->
     exists e cx, e ∈ closes_of fully_wired_A_trace /\
                  nodes fully_wired_graph !! c = Some cx /\ e ∈ ins cx).
Proof.
  destruct (start_cleanup_reaches_the_neighbours Shape_String any_newEdge
              sample_key sample_duration sample_stack
              link_graph fully_wired_graph sample_wiring 0%nat fully_wired_A
              sample_rt [])
    as (H1 & _ & _ & H4).
  - exact link_graph_fresh.
  - by vm_compute.
  - by vm_compute.
  - split; [exact H1|]. apply H4. intros t p q ty. by eexists.
Defined.

(** ** Rendering: [edot] with and without a conduit for every child *)

Section EdotMoreFacts.

Context {EdgeType Ext : Type}.
Implicit Types (g : @Graph EdgeType Ext) (n : @node EdgeType Ext).

(** The loop over the children, whether it ends or panics. *)
Lemma edot_children_result line g n cs : forall i buf,
  (i <= length (outs n))%nat ->
  edot_children line g n i cs buf
  = (buf +:+ join (zip_with
                     (fun c out =>
                        line (name n) (Node_Name g c) (Edge_collectedCount g out))
                     cs (drop i (outs n))),
     if decide (i + length cs <= length (outs n))%nat then EdotReturned
     else EdotIndexOutOfRange (length (outs n)) (length (outs n))).
Proof.
  induction cs as [|c cs IH]; intros i buf Hi; cbn [edot_children].
  - cbn. rewrite append_empty_r. by rewrite decide_True by lia.
  - cbn [length]. destruct (outs n !! i) as [out|] eqn:Hout.
    + pose proof (lookup_lt_Some _ _ _ Hout) as Hlt.
      rewrite IH by lia. rewrite (drop_S _ _ _ Hout). cbn [zip_with join foldr].
      rewrite append_assoc. f_equal.
      destruct (decide (S i + length cs <= length (outs n))%nat),
        (decide (i + S (length cs) <= length (outs n))%nat); done || lia.
    + apply lookup_ge_None in Hout.
      rewrite drop_ge by done. rewrite decide_False by lia.
      replace i with (length (outs n)) by lia.
      destruct cs; cbn; by rewrite append_empty_r.
Qed.

(** X13. What [edot] leaves in the buffer and how it ends, for every
    node. On a node that was never started the statistics map is nil:
    [edot] appends the opening of the node declaration and panics. On a
    node with a live statistics map it appends the declaration of the node
    and one edge declaration for each child that has a conduit at its
    index, in order; it then returns exactly when the node has no more
    children than output conduits, and otherwise panics at the index of
    the first child without a conduit, with what it wrote before still in
    the buffer. It only appends: the text already in the buffer is kept,
    and what is appended does not depend on it. *)
Theorem edot_result_for_every_node g n buf labels :
  edot g n buf labels
  = match statMap n with
    | None => (buf +:+ node_opening labels n, EdotNilMap)
    | Some m =>
        (buf +:+ node_declaration labels n m
           +:+ join (zip_with (edge_declaration labels g n)
                       (children n) (outs n)),
         if decide (length (children n) <= length (outs n))%nat
         then EdotReturned
         else EdotIndexOutOfRange (length (outs n)) (length (outs n)))
    end /\
  ((edot g n buf labels).2 = EdotReturned
   <-> is_Some (statMap n) /\ (length (children n) <= length (outs n))%nat) /\
  length (zip_with (edge_declaration labels g n) (children n) (outs n))
  = (length (children n) `min` length (outs n))%nat /\
  edot g n buf labels
  = (buf +:+ (edot g n EmptyString labels).1,
     (edot g n EmptyString labels).2).
Proof.
  assert (forall b,
            edot g n b labels
            = match statMap n with
              | None => (b +:+ node_opening labels n, EdotNilMap)
              | Some m =>
                  (b +:+ node_declaration labels n m
                     +:+ join (zip_with (edge_declaration labels g n)
                                 (children n) (outs n)),
                   if decide (length (children n) <= length (outs n))%nat
                   then EdotReturned
                   else EdotIndexOutOfRange (length (outs n))
                          (length (outs n)))
              end) as Hedot.
  { intros b. destruct (statMap n) as [m|] eqn:Hmap;
      [|by apply edot_nil_map].
    unfold edot, node_declaration. rewrite Hmap. destruct labels.
    - rewrite (Map_Do_append _ (fun kv => fst kv +:+ "=" +:+ snd kv +:+ " ")).
      rewrite edot_children_result by lia.
      rewrite drop_0, !append_assoc. done.
    - rewrite (Map_Do_append _
                 (fun kv => fst kv +:+ "=" +:+ dq +:+ snd kv +:+ dq +:+ " ")).
      rewrite edot_children_result by lia.
      rewrite drop_0, !append_assoc. done. }
  split; [apply Hedot|]. split; [|split].
  - rewrite Hedot. destruct (statMap n) as [m|]; cbn [snd].
    + case_decide; [by split; [split; [eexists|]|]|].
      split; [done|]. by intros [_ ?].
    + split; [done|]. by intros [[? [=]] _].
  - rewrite length_zip_with. lia.
  - rewrite (Hedot buf), (Hedot EmptyString).
    by destruct (statMap n) as [m|].
Qed.

End EdotMoreFacts.

(** ** Statistics in a wired graph *)

Section WiredStatsFacts.

Context {EdgeType : Type} `{!EqDecision EdgeType}.
Context (EdgeType_String : EdgeType -> string).
Context {Ext : Type}.
Context (newEdge : string -> string -> string -> EdgeType -> option Edge).
Implicit Types (g : @Graph EdgeType Ext) (x : @node EdgeType Ext).

(** [collectedCount] reads the store at the inputs of the node only. *)
Lemma collectedCount_agree g g' x x' :
  ins x' = ins x ->
  (forall e, e ∈ ins x -> edges g' !! e = edges g !! e) ->
  collectedCount g' x' = collectedCount g x.
Proof.
  unfold collectedCount. intros -> Hag. generalize 0.
  induction (ins x) as [|e l IH]; intros acc; cbn [foldl]; [done|].
  unfold Edge_emittedCount at 2 4, edge_at.
  rewrite (Hag e) by left. apply IH. intros e' He'. apply Hag. by right.
Qed.

Lemma collectedCount_snoc g x x' e :
  ins x' = ins x ++ [e] ->
  collectedCount g x'
  = Int64.add (collectedCount g x) (Edge_emittedCount g e).
Proof. unfold collectedCount. intros ->. by rewrite foldl_app. Qed.

(** X14. What a [linkChild] does to the counts [collectedCount] reports,
    in a graph wired by [linkChild] calls: the count of every node but the
    child is as before, the count of the child too when the call failed,
    and after a call that succeeded the count of the child is its count
    before plus, in [int64], the emitted count of the new conduit. *)
Theorem linkChild_adds_the_new_conduit_to_the_count
    g0 ops g n c g' r j x x' :
  fresh_graph g0 ->
  link_seq EdgeType_String newEdge ops g0 = Some g ->
  linkChild EdgeType_String newEdge g n c = Some (g', r) ->
  nodes g !! j = Some x -> nodes g' !! j = Some x' ->
  (j <> c \/ r <> None -> collectedCount g' x' = collectedCount g x) /\
  (j = c -> r = None ->
   exists e ed,
     edges g !! e = None /\ edges g' !! e = Some ed /\
     ins x' = ins x ++ [e] /\
     collectedCount g' x' = Int64.add (collectedCount g x) (emitted ed)).
Proof.
  intros Hfresh Hseq Hlink Hx Hx'.
  pose proof (built_link_seq EdgeType_String newEdge _ _ _
                (built_of_fresh EdgeType_String newEdge _ Hfresh) Hseq) as Hb.
  pose proof (built_conduits_known _ _ _ Hb) as Hknown.
  destruct (linkChild_effect _ _ _ _ _ _ _ Hlink)
    as (nr & cr & Hn & Hc &
        [(_ & -> & ->)|[(_ & _ & -> & He & Hnodes)|(_ & ed & _ & -> & He & Hnodes)]]).
  - rewrite Hx in Hx'. injection Hx' as <-. split; [done|]. by intros _ [=].
  - assert (x' = link_update n c None j x) as ->
      by (rewrite Hnodes, Hx in Hx'; by injection Hx' as <-).
    split; [|by intros _ [=]]. intros _.
    apply collectedCount_agree; [|by rewrite He].
    destruct (link_update_lists n c None j x) as (_ & -> & _).
    cbn. by destruct (decide (j = c)); rewrite app_nil_r.
  - assert (x' = link_update n c (Some (alloc_edge g)) j x) as ->
      by (rewrite Hnodes, Hx in Hx'; by injection Hx' as <-).
    assert (forall e, e ∈ ins x -> edges g' !! e = edges g !! e) as Hag.
    { intros e Hin. rewrite He. apply lookup_insert_ne. intros <-.
      destruct (Hknown j x _ Hx (or_intror Hin)) as [ed' Hed'].
      by rewrite alloc_edge_fresh in Hed'. }
    destruct (link_update_lists n c (Some (alloc_edge g)) j x) as (_ & Hi & _).
    split.
    + intros [Hjc|Hr]; [|done].
      apply collectedCount_agree; [|done].
      rewrite Hi, decide_False by done. by rewrite app_nil_r.
    + intros Hjc _. exists (alloc_edge g), ed.
      split; [apply alloc_edge_fresh|].
      split; [by rewrite He, lookup_insert_eq|].
      rewrite decide_True in Hi by done. split; [done|].
      rewrite (collectedCount_snoc g' x _ (alloc_edge g) Hi).
      rewrite (collectedCount_agree g g' x x eq_refl Hag).
      unfold Edge_emittedCount, edge_at.
      by rewrite He, lookup_insert_eq.
Qed.

(** X16. Which conduit [nodeStatsByGroup] reads, in a graph wired by
    [linkChild] calls with a conduit constructor that knows every stream
    type, whatever the conduits have counted since: a node without
    children gets the nil map, and a node with children gets the groups
    of the conduit to its first child, the one linked first, which is
    among the inputs of that child; the conduits to its other children are
    not read. *)
Theorem nodeStatsByGroup_reads_the_conduit_to_the_first_child
    g0 ops g g' j x :
  (forall t p q ty, is_Some (newEdge t p q ty)) ->
  fresh_graph g0 ->
  link_seq EdgeType_String newEdge ops g0 = Some g ->
  nodes g' = nodes g -> dom (edges g') = dom (edges g) ->
  nodes g' !! j = Some x ->
  (nodeStatsByGroup g' x = None <-> children x = []) /\
  (forall c rest, children x = c :: rest ->
     exists e ed cx,
       outs x !! 0%nat = Some e /\ edges g' !! e = Some ed /\
       nodes g' !! c = Some cx /\ e ∈ ins cx /\
       nodeStatsByGroup g' x
       = Some (entry_of_collected <$> groupStats ed)).
Proof.
  intros Htotal Hfresh Hseq Hnodes Hdom Hx.
  pose proof (built_link_seq EdgeType_String newEdge _ _ _
                (built_of_fresh EdgeType_String newEdge _ Hfresh) Hseq) as Hb.
  rewrite Hnodes in Hx.
  destruct (built_outputs_follow_children EdgeType_String newEdge g
              Htotal Hb j x Hx) as [Hlen Hchild].
  split.
  - unfold nodeStatsByGroup.
    destruct (outs x) as [|e l], (children x) as [|c cs]; cbn in Hlen;
      try done; split; done.
  - intros c rest Hch. rewrite Hch in Hlen, Hchild.
    destruct (outs x) as [|e l] eqn:Hout; [done|].
    destruct (Hchild 0%nat e c eq_refl eq_refl) as (cx & Hcx & Hin).
    assert (is_Some (edges g' !! e)) as [ed Hed].
    { apply elem_of_dom. rewrite Hdom. apply elem_of_dom.
      apply (built_conduits_known _ _ _ Hb j x e Hx). left.
      rewrite Hout. by left. }
    exists e, ed, cx. split; [done|]. split; [done|].
    split; [by rewrite Hnodes|]. split; [done|].
    rewrite (nodeStatsByGroup_cons g' x e l Hout).
    unfold edge_at. by rewrite Hed.
Qed.

End WiredStatsFacts.

(** ** Concurrent writers of MaxDuration, against the sequential ones *)

Section MaxDurationLinear.

Import MaxDur.

Context {float64 : Type} (int64_of : float64 -> Z).

Lemma max_with_Permutation z0 zs zs' :
  zs ≡ₚ zs' -> max_with z0 zs = max_with z0 zs'.
Proof.
  intros Hp. apply max_with_unique.
  - apply max_with_ge.
  - intros z Hz. rewrite <- Hp in Hz. by apply max_with_spec.
  - destruct (max_with_spec z0 zs) as [_ [?|Hin]]; [by left|right].
    by rewrite <- Hp.
Qed.

Lemma returned_or_not (ws : list writer) :
  Forall (fun w => at_ w = Returned) ws \/
  exists i w, ws !! i = Some w /\ at_ w <> Returned.
Proof.
  induction ws as [|w ws IH]; [by left|].
  destruct (at_ w) eqn:Hat.
  - right. exists 0%nat, w. split; [done|]. by rewrite Hat.
  - right. exists 0%nat, w. split; [done|]. by rewrite Hat.
  - destruct IH as [IH|(i & w' & Hi & Hw')].
    + left. by constructor.
    + right. by exists (S i), w'.
Qed.

(** X15. Concurrent calls of [Set] end as the calls one after the other
    would. Whatever the interleaving of the loads and compare-and-swaps of
    the writers: they take at most [n * (2 * n + 3)] steps together, until
    all have returned some writer can take a step, and once all have
    returned the cell holds what the same calls made in sequence, in any
    order, leave in it. *)
Theorem MaxDuration_concurrent_Sets_end_as_sequential values v sched c :
  run sched (spawn float64 int64_of values v) = Some c ->
  (length sched <= length values * (2 * length values + 3))%nat /\
  (all_returned c \/ exists i c', step i c = Some c') /\
  (all_returned c ->
   forall fuel values', values' ≡ₚ values ->
     SetAll float64 int64_of (S fuel) values' v = Some {| d := stored c |}).
Proof.
  intros Hrun.
  destruct (MaxDuration_concurrent_terminates int64_of _ _ _ _ Hrun)
    as [Hlen Hprog].
  destruct (MaxDuration_concurrent_maximum int64_of _ _ _ _ Hrun)
    as (_ & _ & Hmax).
  split; [done|]. split.
  - destruct (returned_or_not (writers c)) as [?|(i & w & Hi & Hw)];
      [by left|right].
    destruct (Hprog i w Hi Hw) as [c' Hc']. by exists i, c'.
  - intros Hret fuel values' Hp. rewrite SetAll_value, (Hmax Hret).
    do 2 f_equal. apply max_with_Permutation. by apply fmap_Permutation.
Qed.

End MaxDurationLinear.

Lemma linkChild_adds_the_new_conduit_to_the_count_witness :
  exists e ed,
    edges linked_AB_graph !! e = None /\
    edges linked_twice_graph !! e = Some ed /\
    ins linked_twice_B = ins linked_B ++ [e] /\
    collectedCount linked_twice_graph linked_twice_B
    = Int64.add (collectedCount linked_AB_graph linked_B) (emitted ed).
Proof.
  apply (linkChild_adds_the_new_conduit_to_the_count Shape_String
           sample_newEdge link_graph [(0, 1)]%nat linked_AB_graph
           0%nat 1%nat linked_twice_graph None 1%nat linked_B linked_twice_B).
  - exact link_graph_fresh.
  - by vm_compute.
  - by vm_compute.
  - by vm_compute.
  - by vm_compute.
  - reflexivity.
  - reflexivity.
Defined.

Lemma nodeStatsByGroup_reads_the_conduit_to_the_first_child_witness :
  exists e ed cx,
    outs fully_wired_A !! 0%nat = Some e /\
    edges flowing_graph !! e = Some ed /\
    nodes flowing_graph !! 1%nat = Some cx /\ e ∈ ins cx /\
    nodeStatsByGroup flowing_graph fully_wired_A
    = Some (entry_of_collected <$> groupStats ed).
Proof.
  apply (nodeStatsByGroup_reads_the_conduit_to_the_first_child Shape_String
           any_newEdge link_graph sample_wiring fully_wired_graph
           flowing_graph 0%nat fully_wired_A) with (rest := [1]%nat).
  - intros t p q ty. by eexists.
  - exact link_graph_fresh.
  - by vm_compute.
  - reflexivity.
  - apply dom_fmap_L.
  - by vm_compute.
  - by vm_compute.
Defined.

Lemma MaxDuration_concurrent_Sets_end_as_sequential_witness :
  (6 <= 2 * (2 * 2 + 3))%nat /\
  MaxDur.SetAll Z id 1 [9; 5] {| MaxDur.d := 0 |}
  = Some {| MaxDur.d := MaxDur.stored raced_cell |}.
Proof.
  destruct (MaxDuration_concurrent_Sets_end_as_sequential (float64 := Z) id
              [5; 9] {| MaxDur.d := 0 |} [0; 1; 0; 1; 1; 1]%nat raced_cell)
    as (Hlen & _ & Hseq); [reflexivity|].
  split; [exact Hlen|]. apply Hseq.
  - repeat constructor.
  - apply perm_swap.
Defined.
